(** * Constructs: the node and tree classes of [constructs/trees.py]

    A shallow embedding of [AbstractNode] and [AbstractTree].  Python objects
    are mutable and are passed by reference, so the embedding keeps an
    explicit object store: node objects and list objects live in two
    arrays, a reference is an index into one of them, and a node's
    [children] attribute is a reference to a list object (two nodes may
    hold the same list).  Methods that only read are functions of the
    store; methods that write return the new store.  The recursive methods
    take the number of call frames still available, and raise
    [RecursionError] when none is left, as the interpreter does. *)

From stdpp Require Import base option list numbers strings relations.
From Stdlib Require Import ZArith Lia.

Local Open Scope Z_scope.

(** ** Results of a call *)

Inductive exn : Set :=
| AttributeError   (* attribute access on [None] *)
| ValueError       (* [list.remove(x)]: x not in list; [max([])] *)
| RecursionError.  (* maximum recursion depth exceeded *)

(** [Dangling] is the result of following a reference to an object that was
    never allocated; it is not a Python outcome and cannot arise on a
    closed store (see [closed]). *)
Inductive result (A : Type) : Type :=
| Ok (a : A)
| Raise (e : exn)
| Dangling.

Arguments Ok {A} a.
Arguments Raise {A} e.
Arguments Dangling {A}.

#[global] Instance result_ret : MRet result := fun A a => Ok a.
#[global] Instance result_bind : MBind result := fun A B f r =>
  match r with
  | Ok a => f a
  | Raise e => Raise e
  | Dangling => Dangling
  end.

(** A list comprehension [[f(x) for x in xs]]: the calls are made left to
    right and the first exception ends the comprehension. *)
Fixpoint comprehension {A B : Type} (f : A -> result B) (xs : list A)
  : result (list B) :=
  match xs with
  | [] => Ok []
  | x :: xs' => y ← f x; ys ← comprehension f xs'; Ok (y :: ys)
  end.

(** Python's [sum] and [max] on a list of integers. *)
Definition py_sum (xs : list Z) : Z := foldl Z.add 0 xs.

Definition py_max (xs : list Z) : result Z :=
  match xs with
  | [] => Raise ValueError
  | x :: xs' => Ok (foldl Z.max x xs')
  end.

(** [list.remove(x)]: deletes the first item equal to [x]; [None] stands for
    the [ValueError] raised when there is none.  Nodes define no [__eq__],
    so equality of nodes is identity of references. *)
Fixpoint py_remove (x : nat) (xs : list nat) : option (list nat) :=
  match xs with
  | [] => None
  | y :: ys => if Nat.eqb y x then Some ys
               else match py_remove x ys with
                    | Some ys' => Some (y :: ys')
                    | None => None
                    end
  end.

(** ** The object store *)

Abbreviation nref := nat (only parsing).   (* reference to a node object *)
Abbreviation lref := nat (only parsing).   (* reference to a list object *)

Record node (T : Type) : Type := Node {
  parent : option nref;
  content : option T;
  children : lref
}.

Arguments Node {T} parent content children.
Arguments parent {T} n.
Arguments content {T} n.
Arguments children {T} n.

Record heap (T : Type) : Type := Heap {
  nodes : list (node T);
  lists : list (list nref)
}.

Arguments Heap {T} nodes lists.
Arguments nodes {T} h.
Arguments lists {T} h.

(** The list object that is the default value of the [children] parameter
    of [AbstractNode.__init__].  A default value is evaluated once, when the
    [def] statement runs, so there is exactly one such object; it is the
    first list allocated. *)
Definition default_children : lref := 0%nat.

(** The store after the class statements have run. *)
Definition class_heap {T : Type} : heap T := Heap [] [[]].

(** The result of a nested list of nodes, as [get_descendants] builds. *)
#[warnings="-register-all"]
Inductive pyval : Set :=
| VNode (n : nref)
| VList (vs : list pyval).

Module AbstractNode.
Section Node.

Context {T : Type}.

Abbreviation heap := (heap T).
Abbreviation node := (node T).

Definition deref (h : heap) (r : nref) : result node :=
  match nodes h !! r with
  | Some nd => Ok nd
  | None => Dangling
  end.

Definition deref_list (h : heap) (l : lref) : result (list nref) :=
  match lists h !! l with
  | Some xs => Ok xs
  | None => Dangling
  end.

(** [o.m(...)] where [o] may be [None]. *)
Definition call_on {A : Type} (o : option nref) (m : nref -> result A)
  : result A :=
  match o with
  | Some r => m r
  | None => Raise AttributeError
  end.

Definition set_node (h : heap) (r : nref) (nd : node) : heap :=
  Heap (<[r := nd]> (nodes h)) (lists h).

Definition set_list (h : heap) (l : lref) (xs : list nref) : heap :=
  Heap (nodes h) (<[l := xs]> (lists h)).

(** Statements run in sequence on the store; an exception ends the sequence
    and leaves the store as it was when it was raised. *)
Definition prog (A : Type) : Type := heap -> result A * heap.

#[global] Instance prog_ret : MRet prog := fun A a h => (Ok a, h).
#[global] Instance prog_bind : MBind prog := fun A B f m h =>
  match m h with
  | (Ok a, h') => f a h'
  | (Raise e, h') => (Raise e, h')
  | (Dangling, h') => (Dangling, h')
  end.

(** A read of the store inside a sequence of statements. *)
Definition ask {A : Type} (q : heap -> result A) : prog A :=
  fun h => (q h, h).

Definition store_node (r : nref) (nd : node) : prog unit :=
  fun h => (Ok tt, set_node h r nd).

Definition store_list (l : lref) (xs : list nref) : prog unit :=
  fun h => (Ok tt, set_list h l xs).

(** A list display [[x1, ..., xn]] allocates a new list object. *)
Definition new_list (xs : list nref) : prog lref :=
  fun h => (Ok (length (lists h)), Heap (nodes h) (lists h ++ [xs])).

(** [AbstractNode(parent, content, children)]; [children = None] is the
    call that omits the argument, and then the attribute is bound to the
    default list object itself. *)
Definition AbstractNode_init (parent : option nref) (content : option T)
    (children : option lref) : prog nref :=
  let l := match children with
           | Some l => l
           | None => default_children
           end in
  fun h =>
    (Ok (length (nodes h)),
     Heap (nodes h ++ [Node parent content l]) (lists h)).

Definition get_parent (h : heap) (self : nref) : result (option nref) :=
  nd ← deref h self; Ok (parent nd).

Definition set_parent (self : nref) (p : option nref) : prog unit :=
  nd ← ask (fun h => deref h self);
  store_node self (Node p (content nd) (children nd)).

Definition has_parent (h : heap) (self : nref) : result bool :=
  nd ← deref h self; Ok (bool_decide (parent nd ≠ None)).

Definition get_content (h : heap) (self : nref) : result (option T) :=
  nd ← deref h self; Ok (content nd).

Definition set_content (self : nref) (c : option T) : prog unit :=
  nd ← ask (fun h => deref h self);
  store_node self (Node (parent nd) c (children nd)).

Definition is_empty (h : heap) (self : nref) : result bool :=
  nd ← deref h self;
  Ok (match content nd with None => true | Some _ => false end).

(** [get_children] returns the list object, not a copy. *)
Definition get_children (h : heap) (self : nref) : result lref :=
  nd ← deref h self; Ok (children nd).

Definition set_children (self : nref) (l : lref) : prog unit :=
  nd ← ask (fun h => deref h self);
  store_node self (Node (parent nd) (content nd) l).

(** The items of [self.children], read through the reference. *)
Definition children_of (h : heap) (self : nref) : result (list nref) :=
  nd ← deref h self; deref_list h (children nd).

Definition has_children (h : heap) (self : nref) : result bool :=
  cs ← children_of h self; Ok (0 <? Z.of_nat (length cs)).

(** [self.children.append(child)]: the list object is updated in place. *)
Definition add_child (self child : nref) : prog unit :=
  nd ← ask (fun h => deref h self);
  cs ← ask (fun h => deref_list h (children nd));
  store_list (children nd) (cs ++ [child]).

(** [self.children.remove(child)]. *)
Definition remove_child (self child : nref) : prog unit :=
  nd ← ask (fun h => deref h self);
  cs ← ask (fun h => deref_list h (children nd));
  match py_remove child cs with
  | Some cs' => store_list (children nd) cs'
  | None => fun h => (Raise ValueError, h)
  end.

Definition is_leaf (h : heap) (self : nref) : result bool :=
  cs ← children_of h self; Ok (Z.of_nat (length cs) =? 0).

Definition is_root (h : heap) (self : nref) : result bool :=
  nd ← deref h self;
  Ok (match parent nd with None => true | Some _ => false end).

Fixpoint get_depth (fuel : nat) (h : heap) (self : nref) : result Z :=
  match fuel with
  | O => Raise RecursionError
  | S fuel' =>
      root ← is_root h self;
      if root : bool then Ok 0
      else
        nd ← deref h self;
        d ← call_on (parent nd) (get_depth fuel' h);
        Ok (d + 1)
  end.

Fixpoint get_height (fuel : nat) (h : heap) (self : nref) : result Z :=
  match fuel with
  | O => Raise RecursionError
  | S fuel' =>
      leaf ← is_leaf h self;
      if leaf : bool then Ok 0
      else
        cs ← children_of h self;
        hs ← comprehension (get_height fuel' h) cs;
        m ← py_max hs;
        Ok (m + 1)
  end.

Fixpoint get_size (fuel : nat) (h : heap) (self : nref) : result Z :=
  match fuel with
  | O => Raise RecursionError
  | S fuel' =>
      cs ← children_of h self;
      ss ← comprehension (get_size fuel' h) cs;
      Ok (py_sum ss + 1)
  end.

Fixpoint get_ancestors (fuel : nat) (h : heap) (self : nref)
  : result (list nref) :=
  match fuel with
  | O => Raise RecursionError
  | S fuel' =>
      root ← is_root h self;
      if root : bool then Ok []
      else
        nd ← deref h self;
        call_on (parent nd)
          (fun p => up ← get_ancestors fuel' h p; Ok ([p] ++ up))
  end.

Fixpoint get_descendants (fuel : nat) (h : heap) (self : nref)
  : result (list pyval) :=
  match fuel with
  | O => Raise RecursionError
  | S fuel' =>
      leaf ← is_leaf h self;
      if leaf : bool then Ok []
      else
        cs ← children_of h self;
        ds ← comprehension (get_descendants fuel' h) cs;
        Ok (map VNode cs ++ map VList ds)
  end.

Definition get_siblings (h : heap) (self : nref) : result (list nref) :=
  root ← is_root h self;
  if root : bool then Ok []
  else
    nd ← deref h self;
    l ← call_on (parent nd) (get_children h);
    cs ← deref_list h l;
    Ok (filter (fun child => child ≠ self) cs).

Fixpoint get_leaves (fuel : nat) (h : heap) (self : nref)
  : result (list nref) :=
  match fuel with
  | O => Raise RecursionError
  | S fuel' =>
      leaf ← is_leaf h self;
      if leaf : bool then Ok [self]
      else
        cs ← children_of h self;
        ls ← comprehension (get_leaves fuel' h) cs;
        Ok (concat ls)
  end.

End Node.
End AbstractNode.

(** ** The tree facade *)

Record tree : Set := Tree { root : option nref }.

Module AbstractTree.
Section Tree.

Context {T : Type}.

Definition init (root : option nref) : tree := Tree root.

Definition get_root (t : tree) : option nref := root t.

Definition set_root (t : tree) (r : option nref) : tree := Tree r.

Definition is_empty (t : tree) : bool :=
  match root t with None => true | Some _ => false end.

Definition get_leaves (fuel : nat) (h : heap T) (t : tree)
  : result (list nref) :=
  AbstractNode.call_on (root t) (AbstractNode.get_leaves fuel h).

Definition get_size (fuel : nat) (h : heap T) (t : tree) : result Z :=
  AbstractNode.call_on (root t) (AbstractNode.get_size fuel h).

Definition get_height (fuel : nat) (h : heap T) (t : tree) : result Z :=
  AbstractNode.call_on (root t) (AbstractNode.get_height fuel h).

Definition get_depth (fuel : nat) (h : heap T) (t : tree) : result Z :=
  AbstractNode.call_on (root t) (AbstractNode.get_depth fuel h).

End Tree.
End AbstractTree.

Import AbstractNode.

(** ** Shapes of the store *)

(** A call returns [v] when it does so with every large enough stack. *)
Definition returns {A : Type} (call : nat -> result A) (v : A) : Prop :=
  exists fuel0 : nat, forall fuel : nat, (fuel0 <= fuel)%nat -> call fuel = Ok v.

(** A call recurses without end when no stack is large enough. *)
Definition overflows {A : Type} (call : nat -> result A) : Prop :=
  forall fuel : nat, call fuel = Raise RecursionError.

(** [c] is one of the children of [p]. *)
Definition child_of {T : Type} (h : heap T) (p c : nref) : Prop :=
  exists (nd : node T) (cs : list nref),
    nodes h !! p = Some nd /\ lists h !! children nd = Some cs /\ c ∈ cs.

(** Every reference held in the store is to an allocated object, as in
    every store that a Python program builds. *)
Definition closed {T : Type} (h : heap T) : Prop :=
  (forall n nd, nodes h !! n = Some nd ->
     is_Some (lists h !! children nd) /\
     forall p, parent nd = Some p -> is_Some (nodes h !! p)) /\
  (forall l cs c, lists h !! l = Some cs -> c ∈ cs -> is_Some (nodes h !! c)).

(** The structure below [n] is finite and acyclic: following [children]
    from [n] reaches allocated objects only and every path ends. *)
#[warnings="-register-all"]
Inductive tree_below {T : Type} (h : heap T) : nref -> Prop :=
| tree_below_node (n : nref) (nd : node T) (cs : list nref) :
    nodes h !! n = Some nd ->
    lists h !! children nd = Some cs ->
    Forall (tree_below h) cs ->
    tree_below h n.

(** The parent chain of [n] is finite: following [parent] from [n] reaches
    a node without parent. *)
Inductive chain_ends {T : Type} (h : heap T) : nref -> Prop :=
| chain_ends_root (n : nref) (nd : node T) :
    nodes h !! n = Some nd ->
    parent nd = None ->
    chain_ends h n
| chain_ends_step (n : nref) (nd : node T) (p : nref) :
    nodes h !! n = Some nd ->
    parent nd = Some p ->
    chain_ends h p ->
    chain_ends h n.

(** The node [k] parent links above [n], when the chain is that long. *)
Fixpoint ancestor_at {T : Type} (h : heap T) (k : nat) (n : nref)
  : option nref :=
  match k with
  | O => Some n
  | S k' =>
      match nodes h !! n with
      | Some nd =>
          match parent nd with
          | Some p => ancestor_at h k' p
          | None => None
          end
      | None => None
      end
  end.

(** [n] lies on a parent cycle: some positive number of parent links leads
    from [n] back to [n]. *)
Definition on_parent_cycle {T : Type} (h : heap T) (n : nref) : Prop :=
  exists k : nat, (0 < k)%nat /\ ancestor_at h k n = Some n.

(** The contract the specification asks of [get_descendants]: the flat
    sequence of all descendants in pre-order, each child followed by its
    own descendants, children left to right, the node itself left out. *)
Fixpoint descendants_preorder {T : Type} (fuel : nat) (h : heap T)
    (self : nref) : result (list nref) :=
  match fuel with
  | O => Raise RecursionError
  | S fuel' =>
      cs ← children_of h self;
      ds ← comprehension
             (fun c => d ← descendants_preorder fuel' h c; Ok (c :: d)) cs;
      Ok (concat ds)
  end.

(** The number of items of [xs] equal to [x]. *)
Definition occurrences (x : nref) (xs : list nref) : nat :=
  length (filter (fun y => y = x) xs).

(** ** Sample programs *)

(** [A(B(D, E), C)], every node made with its own list of children and
    with its parent given. *)
Definition build_ABDEC : prog (nref * nref * nref * nref * nref) :=
  la ← new_list []; a ← AbstractNode_init None (Some "A"%string) (Some la);
  lb ← new_list []; b ← AbstractNode_init (Some a) (Some "B"%string) (Some lb);
  lc ← new_list []; c ← AbstractNode_init (Some a) (Some "C"%string) (Some lc);
  ld ← new_list []; d ← AbstractNode_init (Some b) (Some "D"%string) (Some ld);
  le ← new_list []; e ← AbstractNode_init (Some b) (Some "E"%string) (Some le);
  _ ← add_child a b; _ ← add_child a c;
  _ ← add_child b d; _ ← add_child b e;
  mret (a, b, c, d, e).

(** [A(B(D), C)]. *)
Definition build_ABDC : prog (nref * nref * nref * nref) :=
  la ← new_list []; a ← AbstractNode_init None (Some "A"%string) (Some la);
  lb ← new_list []; b ← AbstractNode_init (Some a) (Some "B"%string) (Some lb);
  lc ← new_list []; c ← AbstractNode_init (Some a) (Some "C"%string) (Some lc);
  ld ← new_list []; d ← AbstractNode_init (Some b) (Some "D"%string) (Some ld);
  _ ← add_child a b; _ ← add_child a c; _ ← add_child b d;
  mret (a, b, c, d).

(** Two nodes that are each other's parent. *)
Definition build_parent_cycle : prog (nref * nref) :=
  la ← new_list []; a ← AbstractNode_init None (Some "A"%string) (Some la);
  lb ← new_list []; b ← AbstractNode_init (Some a) (Some "B"%string) (Some lb);
  _ ← set_parent a (Some b);
  mret (a, b).

Definition heap_parent_cycle : heap string :=
  snd (build_parent_cycle class_heap).

(** A parent to which the same child is added twice. *)
Definition build_twice : prog (nref * nref) :=
  lp ← new_list []; p ← AbstractNode_init None (Some "P"%string) (Some lp);
  ln ← new_list []; n ← AbstractNode_init (Some p) (Some "N"%string) (Some ln);
  _ ← add_child p n; _ ← add_child p n;
  mret (p, n).

Definition heap_twice : heap string := snd (build_twice class_heap).

Definition heap_ABDEC : heap string := snd (build_ABDEC class_heap).

Definition heap_ABDC : heap string := snd (build_ABDC class_heap).

(** The shape [A(B(D, E), C)] with consistent parent links. *)
Definition shape_ABDEC {T : Type} (h : heap T) (a b c d e : nref) : Prop :=
  children_of h a = Ok [b; c] /\ children_of h b = Ok [d; e] /\
  children_of h c = Ok [] /\ children_of h d = Ok [] /\
  children_of h e = Ok [] /\
  get_parent h a = Ok None /\
  get_parent h b = Ok (Some a) /\ get_parent h c = Ok (Some a) /\
  get_parent h d = Ok (Some b) /\ get_parent h e = Ok (Some b).

(** [is_leaf] answers true on [n]. *)
Definition leafb {T : Type} (h : heap T) (n : nref) : bool :=
  match is_leaf h n with
  | Ok true => true
  | _ => false
  end.

(** The nodes of a nested list, read left to right through every level. *)
Fixpoint flatten (v : pyval) : list nref :=
  match v with
  | VNode n => [n]
  | VList vs => concat (List.map flatten vs)
  end.

(** A call returned or ran out of stack: it raised no other exception and
    followed no dangling reference. *)
Definition ok_or_overflow {A : Type} (r : result A) : Prop :=
  (exists v : A, r = Ok v) \/ r = Raise RecursionError.

(** From [n] the children lead to a node that is its own descendant. *)
Definition reaches_child_cycle {T : Type} (h : heap T) (n : nref) : Prop :=
  exists m : nref, rtc (child_of h) n m /\ tc (child_of h) m m.

(** Two nodes made without a [children] argument, the second added to the
    children of the first. *)
Definition build_default_pair : prog (nref * nref) :=
  a ← AbstractNode_init None (Some "A"%string) None;
  b ← AbstractNode_init (Some a) (Some "B"%string) None;
  _ ← add_child a b;
  mret (a, b).

Definition heap_default_pair : heap string :=
  snd (build_default_pair class_heap).

(** ** Basic facts on results and comprehensions *)

Lemma bind_Ok_inv {A B : Type} (r : result A) (f : A -> result B) (b : B) :
  r ≫= f = Ok b -> exists a, r = Ok a /\ f a = Ok b.
Proof. destruct r as [a| |]; simpl; intros H; try discriminate; eauto. Qed.

Tactic Notation "inv_bind" hyp(H) "as" ident(a) ident(Ha) :=
  apply bind_Ok_inv in H; destruct H as (a & Ha & H).

Lemma comprehension_Forall2 {A B : Type} (f : A -> result B) xs ys :
  comprehension f xs = Ok ys <-> Forall2 (fun x y => f x = Ok y) xs ys.
Proof.
  split.
  - revert ys. induction xs as [|x xs IH]; simpl; intros ys H.
    + injection H as <-. constructor.
    + inv_bind H as y Hy. inv_bind H as ys' Hys. injection H as <-.
      constructor; auto.
  - induction 1 as [|x y xs ys Hx _ IH]; simpl; [done|].
    rewrite Hx. simpl. rewrite IH. done.
Qed.

(** When every call of a comprehension returns, so does the comprehension,
    with one stack for all the calls. *)
Lemma comprehension_returns {A B : Type} (f : nat -> A -> result B) xs :
  Forall (fun x => exists y, returns (fun fuel => f fuel x) y) xs ->
  exists ys, Forall2 (fun x y => returns (fun fuel => f fuel x) y) xs ys /\
             returns (fun fuel => comprehension (f fuel) xs) ys.
Proof.
  induction 1 as [|x xs (y & k1 & Hy) _ (ys & Hall & k2 & Hys)].
  - exists []. split; [constructor|]. exists 0%nat. done.
  - exists (y :: ys). split.
    + constructor; [by exists k1|done].
    + exists (k1 `max` k2)%nat. intros fuel Hfuel. simpl.
      rewrite Hy by lia. simpl. rewrite Hys by lia. done.
Qed.

Lemma returns_unique {A : Type} (call : nat -> result A) (v w : A) :
  returns call v -> returns call w -> v = w.
Proof.
  intros [k1 H1] [k2 H2].
  specialize (H1 (k1 `max` k2)%nat). specialize (H2 (k1 `max` k2)%nat).
  rewrite H1 in H2 by lia. injection H2; [done|lia].
Qed.

Lemma returns_not_overflows {A : Type} (call : nat -> result A) (v : A) :
  returns call v -> ~ overflows call.
Proof. intros [k Hk] Hov. specialize (Hk k). rewrite Hov in Hk. by specialize (Hk (le_n _)). Qed.

Section NodeFacts.

Context {T : Type}.
Implicit Types (h : heap T) (n self : nref) (cs : list nref).

Lemma children_of_Ok h n nd cs :
  nodes h !! n = Some nd -> lists h !! children nd = Some cs ->
  children_of h n = Ok cs.
Proof.
  intros Hn Hl. unfold children_of, deref, deref_list.
  rewrite Hn. simpl. by rewrite Hl.
Qed.

Lemma children_of_inv h n cs :
  children_of h n = Ok cs ->
  exists nd, nodes h !! n = Some nd /\ lists h !! children nd = Some cs.
Proof.
  unfold children_of, deref, deref_list. intros H.
  destruct (nodes h !! n) as [nd|]; [|discriminate]. simpl in H.
  exists nd. split; [done|].
  destruct (lists h !! children nd) as [xs|]; [|discriminate].
  by injection H as <-.
Qed.

(** Induction on [tree_below] with the hypothesis for every child. *)
Lemma tree_below_ind' h (P : nref -> Prop) :
  (forall n nd cs,
      nodes h !! n = Some nd -> lists h !! children nd = Some cs ->
      Forall (tree_below h) cs -> Forall P cs -> P n) ->
  forall n, tree_below h n -> P n.
Proof.
  intros step. fix rec 2. intros n [n' nd cs Hn Hl Hcs].
  apply (step n' nd cs Hn Hl Hcs). clear Hl.
  induction Hcs as [|c cs' Hc _ IH].
  - constructor.
  - constructor; [exact (rec c Hc)|exact IH].
Qed.

(** In a closed store where the children relation decreases some rank,
    the structure below every node is a finite tree. *)
Lemma ranked_tree_below h (rank : nref -> nat) :
  closed h ->
  (forall p c, child_of h p c -> (rank c < rank p)%nat) ->
  forall n, is_Some (nodes h !! n) -> tree_below h n.
Proof.
  intros [Hnodes Hlists] Hrank n.
  remember (rank n) as k eqn:Hk. revert n Hk.
  induction k as [k IH] using lt_wf_ind. intros n -> [nd Hn].
  destruct (Hnodes n nd Hn) as [[cs Hl] _].
  apply (tree_below_node h n nd cs Hn Hl).
  apply Forall_forall. intros c Hc.
  apply (IH (rank c)); [|done|by eapply Hlists].
  apply Hrank. by exists nd, cs.
Qed.

(** Below a node of a finite tree no node is its own descendant. *)
Lemma tree_below_no_cycle h n : tree_below h n -> ~ tc (child_of h) n n.
Proof.
  revert n. apply tree_below_ind'. intros n nd cs Hn Hl _ IH Hcyc.
  rewrite Forall_forall in IH.
  assert (forall c, child_of h n c -> c ∈ cs) as Hchild.
  { intros c (nd' & cs' & Hn' & Hl' & Hc).
    rewrite Hn in Hn'. injection Hn' as <-.
    rewrite Hl in Hl'. by injection Hl' as <-. }
  inversion Hcyc as [x y Hstep|x y z Hstep Hrest]; subst.
  - apply (IH n (Hchild n Hstep)), Hcyc.
  - apply (IH y (Hchild y Hstep)). by eapply tc_r.
Qed.

(** *** Sums and maxima *)

Lemma foldl_add_foldr (a : Z) (xs : list Z) :
  foldl Z.add a xs = a + foldr Z.add 0 xs.
Proof.
  revert a. induction xs as [|x xs IH]; intros a; simpl; [lia|].
  rewrite IH. lia.
Qed.

Lemma py_sum_foldr (xs : list Z) : py_sum xs = foldr Z.add 0 xs.
Proof. unfold py_sum. rewrite foldl_add_foldr. lia. Qed.

Lemma foldr_add_pos (xs : list Z) :
  Forall (fun x => 0 < x) xs -> 0 <= foldr Z.add 0 xs.
Proof. induction 1; simpl; lia. Qed.

Lemma foldl_max_spec (a : Z) (xs : list Z) :
  (foldl Z.max a xs = a \/ foldl Z.max a xs ∈ xs) /\
  a <= foldl Z.max a xs /\
  Forall (fun x => x <= foldl Z.max a xs) xs.
Proof.
  revert a. induction xs as [|x xs IH]; intros a; simpl.
  - split; [by left|]. split; [lia|constructor].
  - destruct (IH (a `max` x)) as (Hin & Hle & Hall). split; [|split].
    + destruct Hin as [Heq|Hin]; [|right; by constructor].
      destruct (Z.max_spec a x) as [[_ Hm]|[_ Hm]].
      * right. rewrite Heq, Hm. constructor.
      * left. by rewrite Heq.
    + lia.
    + constructor; [lia|done].
Qed.

Lemma py_max_spec (xs : list Z) (m : Z) :
  py_max xs = Ok m -> m ∈ xs /\ Forall (fun x => x <= m) xs.
Proof.
  destruct xs as [|x xs]; simpl; [discriminate|]. intros [= <-].
  destruct (foldl_max_spec x xs) as (Hin & Hle & Hall). split.
  - destruct Hin as [->|Hin]; [constructor|by constructor].
  - by constructor.
Qed.

(** *** [get_size] *)

Lemma get_size_pos h fuel n s : get_size fuel h n = Ok s -> 0 < s.
Proof.
  revert n s. induction fuel as [|fuel IH]; intros n s H; simpl in H.
  - discriminate.
  - inv_bind H as cs Hcs. inv_bind H as ss Hss. injection H as <-.
    apply comprehension_Forall2 in Hss. rewrite py_sum_foldr.
    assert (Forall (fun x => 0 < x) ss) as Hpos.
    { clear Hcs. induction Hss; constructor; eauto. }
    apply foldr_add_pos in Hpos. lia.
Qed.

Lemma get_size_returns h n :
  tree_below h n -> exists s, returns (fun fuel => get_size fuel h n) s.
Proof.
  revert n. apply tree_below_ind'. intros n nd cs Hn Hl _ IH.
  apply (comprehension_returns (fun fuel => get_size fuel h)) in IH.
  destruct IH as (ss & _ & k & Hk).
  exists (py_sum ss + 1), (S k). intros [|fuel] Hfuel; [lia|]. simpl.
  rewrite (children_of_Ok h n nd cs Hn Hl). simpl.
  rewrite Hk by lia. done.
Qed.

Lemma descendants_preorder_returns h n :
  tree_below h n ->
  exists ds, returns (fun fuel => descendants_preorder fuel h n) ds.
Proof.
  revert n. apply tree_below_ind'. intros n nd cs Hn Hl _ IH.
  assert (Forall (fun c => exists y, returns (fun fuel =>
            d ← descendants_preorder fuel h c; Ok (c :: d)) y) cs) as IH'.
  { eapply Forall_impl; [exact IH|]. intros c (d & k & Hk).
    exists (c :: d), k. intros fuel Hfuel. by rewrite Hk. }
  apply (comprehension_returns
           (fun fuel c => d ← descendants_preorder fuel h c; Ok (c :: d)))
    in IH'.
  destruct IH' as (dss & _ & k & Hk).
  exists (concat dss), (S k). intros [|fuel] Hfuel; [lia|]. simpl.
  rewrite (children_of_Ok h n nd cs Hn Hl). simpl.
  rewrite Hk by lia. done.
Qed.

(** With the same stack, [get_size] counts the node and the nodes that the
    pre-order walk lists. *)
Lemma get_size_preorder h fuel n s ds :
  get_size fuel h n = Ok s ->
  descendants_preorder fuel h n = Ok ds ->
  s = 1 + Z.of_nat (length ds).
Proof.
  revert n s ds. induction fuel as [|fuel IH]; intros n s ds Hs Hd.
  - discriminate.
  - simpl in Hs, Hd. inv_bind Hs as cs0 Hcs0. inv_bind Hs as ss0 Hss0.
    injection Hs as <-.
    rewrite Hcs0 in Hd. simpl in Hd. inv_bind Hd as dss0 Hdss0.
    injection Hd as <-.
    apply comprehension_Forall2 in Hss0, Hdss0. clear Hcs0.
    rewrite py_sum_foldr.
    enough (foldr Z.add 0 ss0 = Z.of_nat (length (concat dss0))) by lia.
    revert dss0 Hdss0.
    induction Hss0 as [|c sc cs ss Hc _ IHcs]; intros dss Hdss.
    + by apply Forall2_nil_inv_l in Hdss as ->.
    + apply Forall2_cons_inv_l in Hdss as (d' & dss' & Hd' & Hdss' & ->).
      inv_bind Hd' as d Hd. injection Hd' as <-. simpl.
      rewrite length_app, (IHcs _ Hdss'), (IH _ _ _ Hc Hd). lia.
Qed.

End NodeFacts.

(** ** Size *)

(** C7.  On a finite acyclic structure [get_size] returns; its value is 1
    plus the sum of the values [get_size] returns on the children of the
    node; it is positive; and it counts the node itself plus every
    descendant, that is, every entry of the pre-order walk below the node. *)
Theorem get_size_one_plus_children {T : Type} (h : heap T) (n : nref) :
  tree_below h n ->
  exists (cs : list nref) (ss : list Z) (s : Z) (ds : list nref),
    children_of h n = Ok cs /\
    Forall2 (fun c sc => returns (fun fuel => get_size fuel h c) sc) cs ss /\
    returns (fun fuel => get_size fuel h n) s /\
    s = 1 + foldr Z.add 0 ss /\
    0 < s /\
    returns (fun fuel => descendants_preorder fuel h n) ds /\
    s = 1 + Z.of_nat (length ds).
Proof.
  intros Ht.
  destruct (get_size_returns h n Ht) as (s & Hs).
  destruct (descendants_preorder_returns h n Ht) as (ds & Hds).
  destruct Ht as [n nd cs Hn Hl Hcs].
  assert (Forall (fun c => exists sc, returns (fun fuel => get_size fuel h c) sc)
            cs) as Hret.
  { eapply Forall_impl; [exact Hcs|]. intros c Hc. by apply get_size_returns. }
  apply (comprehension_returns (fun fuel => get_size fuel h)) in Hret.
  destruct Hret as (ss & Hall & k & Hk).
  assert (returns (fun fuel => get_size fuel h n) (py_sum ss + 1)) as Hs'.
  { exists (S k). intros [|fuel] Hfuel; [lia|]. simpl.
    rewrite (children_of_Ok h n nd cs Hn Hl). simpl.
    rewrite Hk by lia. done. }
  assert (s = py_sum ss + 1) as Heq by exact (returns_unique _ _ _ Hs Hs').
  exists cs, ss, s, ds. split; [by eapply children_of_Ok|].
  split; [exact Hall|]. split; [exact Hs|].
  split; [rewrite Heq, py_sum_foldr; lia|].
  destruct Hs as [k1 Hk1]. destruct Hds as [k2 Hk2].
  pose proof (Hk1 (k1 `max` k2)%nat) as H1.
  pose proof (Hk2 (k1 `max` k2)%nat) as H2.
  specialize (H1 ltac:(lia)). specialize (H2 ltac:(lia)).
  split; [by eapply get_size_pos|].
  split; [by exists k2|].
  by eapply get_size_preorder.
Qed.

(** ** Height *)

Lemma is_leaf_Ok {T : Type} (h : heap T) n nd cs :
  nodes h !! n = Some nd -> lists h !! children nd = Some cs ->
  is_leaf h n = Ok (Z.of_nat (length cs) =? 0).
Proof. intros Hn Hl. unfold is_leaf. by rewrite (children_of_Ok h n nd cs). Qed.

Lemma get_height_nonneg {T : Type} (h : heap T) fuel n v :
  get_height fuel h n = Ok v -> 0 <= v.
Proof.
  revert n v. induction fuel as [|fuel IH]; intros n v H; simpl in H.
  - discriminate.
  - inv_bind H as leaf Hleaf. destruct leaf.
    + injection H as <-. lia.
    + inv_bind H as cs0 Hcs0. inv_bind H as hs0 Hhs0. inv_bind H as m Hm.
      injection H as <-.
      apply py_max_spec in Hm as [Hin _].
      apply comprehension_Forall2 in Hhs0.
      enough (0 <= m) by lia. clear Hleaf Hcs0.
      induction Hhs0 as [|c hc cs hs Hc _ IHcs].
      * by apply elem_of_nil in Hin.
      * apply elem_of_cons in Hin as [->|Hin]; eauto.
Qed.

(** One call of [get_height] on a node whose children all return. *)
Lemma get_height_node {T : Type} (h : heap T) n nd cs hs :
  nodes h !! n = Some nd -> lists h !! children nd = Some cs ->
  returns (fun fuel => comprehension (get_height fuel h) cs) hs ->
  returns (fun fuel => get_height fuel h n)
          (match hs with [] => 0 | x :: xs => foldl Z.max x xs + 1 end).
Proof.
  intros Hn Hl [k Hk]. exists (S k). intros [|fuel] Hfuel; [lia|].
  specialize (Hk fuel ltac:(lia)). simpl.
  rewrite (is_leaf_Ok h n nd cs Hn Hl). simpl.
  destruct cs as [|c cs].
  - simpl in Hk. by injection Hk as <-.
  - replace (Z.of_nat (length (c :: cs)) =? 0) with false
      by (symmetry; apply Z.eqb_neq; simpl; lia).
    rewrite (children_of_Ok h n nd (c :: cs) Hn Hl).
    pose proof Hk as Hhs.
    apply comprehension_Forall2, Forall2_cons_inv_l in Hhs.
    destruct Hhs as (y & ys & _ & _ & ->).
    simpl in Hk |- *. by rewrite Hk.
Qed.

Lemma get_height_returns {T : Type} (h : heap T) n :
  tree_below h n -> exists ht, returns (fun fuel => get_height fuel h n) ht.
Proof.
  revert n. apply tree_below_ind'. intros n nd cs Hn Hl _ IH.
  apply (comprehension_returns (fun fuel => get_height fuel h)) in IH.
  destruct IH as (hs & _ & Hhs). eexists. by eapply get_height_node.
Qed.

(** C8.  On a finite acyclic structure [get_height] returns; the value is
    0 exactly when [is_leaf] answers true; and on a node that is not a leaf
    it is 1 plus the greatest of the values [get_height] returns on the
    children. *)
Theorem get_height_zero_iff_leaf {T : Type} (h : heap T) (n : nref) :
  tree_below h n ->
  exists (ht : Z) (leaf : bool),
    returns (fun fuel => get_height fuel h n) ht /\
    is_leaf h n = Ok leaf /\
    (ht = 0 <-> leaf = true) /\
    (leaf = false ->
     exists (cs : list nref) (hs : list Z) (m : Z),
       children_of h n = Ok cs /\
       Forall2 (fun c hc => returns (fun fuel => get_height fuel h c) hc)
               cs hs /\
       m ∈ hs /\ Forall (fun x => x <= m) hs /\
       ht = 1 + m).
Proof.
  intros [n' nd cs Hn Hl Hcs].
  assert (Forall (fun c => exists hc,
            returns (fun fuel => get_height fuel h c) hc) cs) as Hret.
  { eapply Forall_impl; [exact Hcs|]. intros c Hc. by apply get_height_returns. }
  apply (comprehension_returns (fun fuel => get_height fuel h)) in Hret.
  destruct Hret as (hs & Hall & Hhs).
  pose proof (get_height_node h n' nd cs hs Hn Hl Hhs) as Hht.
  eexists _, (Z.of_nat (length cs) =? 0).
  split; [exact Hht|]. split; [by eapply is_leaf_Ok|].
  destruct Hall as [|c hc cs hs Hc Hall].
  - split; [done|]. simpl. discriminate.
  - assert (0 <= hc) as Hnonneg.
    { destruct Hc as [k Hk]. eapply get_height_nonneg, (Hk k). lia. }
    destruct (py_max_spec (hc :: hs) (foldl Z.max hc hs) eq_refl)
      as [Hin Hle].
    assert (hc <= foldl Z.max hc hs) as Hge
      by (apply Forall_cons in Hle; tauto).
    split.
    + split; [lia|]. intros Hleaf. apply Z.eqb_eq in Hleaf.
      simpl in Hleaf. lia.
    + intros _. exists (c :: cs), (hc :: hs), (foldl Z.max hc hs).
      split; [by eapply children_of_Ok|].
      split; [by constructor|]. split; [exact Hin|].
      split; [exact Hle|lia].
Qed.

(** ** Depth *)

Lemma get_depth_root {T : Type} (h : heap T) fuel n nd :
  nodes h !! n = Some nd -> parent nd = None ->
  get_depth (S fuel) h n = Ok 0.
Proof.
  intros Hn Hp. simpl. unfold is_root, deref. rewrite Hn. simpl.
  by rewrite Hp.
Qed.

Lemma get_depth_step {T : Type} (h : heap T) fuel n nd p :
  nodes h !! n = Some nd -> parent nd = Some p ->
  get_depth (S fuel) h n = (d ← get_depth fuel h p; Ok (d + 1)).
Proof.
  intros Hn Hp. simpl. unfold is_root, deref. rewrite Hn. simpl.
  by rewrite Hp.
Qed.

Lemma ancestor_at_add {T : Type} (h : heap T) a b n :
  ancestor_at h (a + b) n = ancestor_at h a n ≫= ancestor_at h b.
Proof.
  revert n. induction a as [|a IH]; intros n; simpl; [done|].
  destruct (nodes h !! n) as [nd|]; [|done].
  destruct (parent nd) as [p|]; [|done]. apply IH.
Qed.

Lemma ancestor_at_prefix {T : Type} (h : heap T) a b n :
  (a <= b)%nat -> is_Some (ancestor_at h b n) -> is_Some (ancestor_at h a n).
Proof.
  intros Hle. replace b with (a + (b - a))%nat by lia.
  rewrite ancestor_at_add. destruct (ancestor_at h a n); [eauto|].
  by intros [x Hx].
Qed.

(** From a node on a parent cycle the parent chain never ends. *)
Lemma parent_cycle_endless {T : Type} (h : heap T) m :
  on_parent_cycle h m -> forall j, is_Some (ancestor_at h j m).
Proof.
  intros (k & Hk & Hcyc) j.
  assert (forall i, ancestor_at h (i * k) m = Some m) as Hloop.
  { induction i as [|i IH]; [done|].
    replace (S i * k)%nat with (k + i * k)%nat by lia.
    rewrite ancestor_at_add, Hcyc. exact IH. }
  apply (ancestor_at_prefix h j (j * k)); [nia|].
  rewrite Hloop. eauto.
Qed.

Lemma endless_chain_overflows {T : Type} (h : heap T) fuel :
  forall n, (forall j, is_Some (ancestor_at h j n)) ->
            get_depth fuel h n = Raise RecursionError.
Proof.
  induction fuel as [|fuel IH]; intros n Hn; [done|].
  pose proof (Hn 1%nat) as [p Hp]. simpl in Hp.
  destruct (nodes h !! n) as [nd|] eqn:Hnd; [|discriminate].
  destruct (parent nd) as [p'|] eqn:Hpar; [|discriminate].
  rewrite (get_depth_step h fuel n nd p' Hnd Hpar), IH; [done|].
  intros j. specialize (Hn (S j)). simpl in Hn.
  by rewrite Hnd, Hpar in Hn.
Qed.

(** C9.  When the parent chain of a node is finite, [get_depth] returns a
    value that is 0 for a node without parent and otherwise is the value it
    returns on the parent plus 1.  When the parent chain of a node leads
    into a parent cycle, [get_depth] recurses without end: whatever the
    stack, the call fails for lack of stack. *)
Theorem get_depth_parent_chain {T : Type} (h : heap T) (n : nref) :
  (chain_ends h n ->
   exists d : Z,
     returns (fun fuel => get_depth fuel h n) d /\
     0 <= d /\
     forall nd, nodes h !! n = Some nd ->
       match parent nd with
       | None => d = 0
       | Some p =>
           exists dp, returns (fun fuel => get_depth fuel h p) dp /\
                      d = dp + 1
       end) /\
  ((exists j m, ancestor_at h j n = Some m /\ on_parent_cycle h m) ->
   overflows (fun fuel => get_depth fuel h n)).
Proof.
  split.
  - induction 1 as [n nd Hn Hp|n nd p Hn Hp _ (dp & Hdp & Hnonneg & _)].
    + exists 0. split; [|split; [lia|]].
      * exists 1%nat. intros [|fuel] Hfuel; [lia|].
        by eapply get_depth_root.
      * intros nd' Hn'. rewrite Hn in Hn'. injection Hn' as <-.
        by rewrite Hp.
    + exists (dp + 1). split; [|split; [lia|]].
      * destruct Hdp as [k Hk]. exists (S k).
        intros [|fuel] Hfuel; [lia|].
        rewrite (get_depth_step h fuel n nd p Hn Hp), Hk by lia. done.
      * intros nd' Hn'. rewrite Hn in Hn'. injection Hn' as <-.
        rewrite Hp. by exists dp.
  - intros (j & m & Hreach & Hcyc) fuel.
    apply endless_chain_overflows. intros k.
    apply (ancestor_at_prefix h k (j + k)); [lia|].
    rewrite ancestor_at_add, Hreach. simpl.
    by apply parent_cycle_endless.
Qed.

(** ** Siblings *)

Lemma length_filter_ne_eq (x : nref) (xs : list nref) :
  (length (filter (fun y => y ≠ x) xs) + occurrences x xs)%nat = length xs.
Proof.
  unfold occurrences. induction xs as [|y ys IH]; [done|].
  destruct (decide (y = x)) as [Heq|Hne].
  - rewrite (filter_cons_False (fun y => y ≠ x)) by (intros Hn; by apply Hn).
    rewrite (filter_cons_True (fun y => y = x)) by done.
    simpl. lia.
  - rewrite (filter_cons_True (fun y => y ≠ x)) by done.
    rewrite (filter_cons_False (fun y => y = x)) by done.
    simpl. lia.
Qed.

(** C6, as the code has it.  For a node without parent [get_siblings]
    returns the empty list.  For a node with a parent it returns the
    children of the parent that are not the node, in their order; the node
    is not among them, and their number is the number of children of the
    parent minus the number of times the node occurs among these, which is
    one less than the number of children when the node occurs exactly
    once. *)
Theorem get_siblings_others {T : Type} (h : heap T) (n : nref) (nd : node T) :
  nodes h !! n = Some nd ->
  match parent nd with
  | None => get_siblings h n = Ok []
  | Some p =>
      forall (pd : node T) (cs : list nref),
        nodes h !! p = Some pd -> lists h !! children pd = Some cs ->
        exists sibs : list nref,
          get_siblings h n = Ok sibs /\
          (n ∉ sibs) /\
          (forall c, c ∈ sibs <-> c ∈ cs /\ c ≠ n) /\
          Z.of_nat (length sibs) =
            Z.of_nat (length cs) - Z.of_nat (occurrences n cs) /\
          (occurrences n cs = 1%nat ->
           Z.of_nat (length sibs) = Z.of_nat (length cs) - 1)
  end.
Proof.
  intros Hn. unfold get_siblings, is_root, get_children, deref, deref_list.
  rewrite Hn. simpl. destruct (parent nd) as [p|]; [|done].
  intros pd cs Hp Hl. simpl. rewrite Hp. simpl. rewrite Hl. simpl.
  eexists. split; [done|].
  pose proof (length_filter_ne_eq n cs) as Hlen.
  split; [|split; [|split]].
  - intros Hin. apply list_elem_of_filter in Hin as [Hne _]. by apply Hne.
  - intros c. rewrite list_elem_of_filter. tauto.
  - lia.
  - intros Honce. lia.
Qed.

(** C6 as stated fails: a node that occurs twice among the children of its
    parent has no sibling, not one. *)
Lemma get_siblings_length_counterexample :
  ~ (forall (h : heap string) (n p : nref) (nd pd : node string)
            (cs : list nref),
        nodes h !! n = Some nd -> parent nd = Some p ->
        nodes h !! p = Some pd -> lists h !! children pd = Some cs ->
        n ∈ cs ->
        exists sibs : list nref,
          get_siblings h n = Ok sibs /\ (n ∉ sibs) /\
          Z.of_nat (length sibs) = Z.of_nat (length cs) - 1).
Proof.
  intros H.
  destruct (H heap_twice 1%nat 0%nat _ _ [1; 1]%nat
              eq_refl eq_refl eq_refl eq_refl)
    as (sibs & Hsibs & _ & Hlen).
  - constructor.
  - vm_compute in Hsibs. injection Hsibs as <-. simpl in Hlen. lia.
Qed.

(** ** Removing and adding children *)

Lemma py_remove_absent (x : nref) (xs : list nref) :
  x ∉ xs -> py_remove x xs = None.
Proof.
  induction xs as [|y ys IH]; [done|]. intros Hnotin.
  apply not_elem_of_cons in Hnotin as [Hne Hnotin]. simpl.
  destruct (Nat.eqb_spec y x) as [->|_]; [done|]. by rewrite IH.
Qed.

Lemma py_remove_first (x : nref) (pre post : list nref) :
  x ∉ pre -> py_remove x (pre ++ x :: post) = Some (pre ++ post).
Proof.
  induction pre as [|y ys IH]; simpl.
  - intros _. by rewrite Nat.eqb_refl.
  - intros Hnotin. apply not_elem_of_cons in Hnotin as [Hne Hnotin].
    destruct (Nat.eqb_spec y x) as [->|_]; [done|]. by rewrite IH.
Qed.

Lemma add_child_eq {T : Type} (h : heap T) n nd cs c :
  nodes h !! n = Some nd -> lists h !! children nd = Some cs ->
  add_child n c h = (Ok tt, set_list h (children nd) (cs ++ [c])).
Proof.
  intros Hn Hl.
  unfold add_child, mbind, prog_bind, ask, store_list, deref, deref_list.
  by rewrite Hn, Hl.
Qed.

Lemma remove_child_eq {T : Type} (h : heap T) n nd cs c :
  nodes h !! n = Some nd -> lists h !! children nd = Some cs ->
  remove_child n c h =
    match py_remove c cs with
    | Some cs' => (Ok tt, set_list h (children nd) cs')
    | None => (Raise ValueError, h)
    end.
Proof.
  intros Hn Hl.
  unfold remove_child, mbind, prog_bind, ask, store_list, deref, deref_list.
  rewrite Hn, Hl. by destruct (py_remove c cs).
Qed.

Lemma children_of_set_list {T : Type} (h : heap T) n nd cs cs' :
  nodes h !! n = Some nd -> lists h !! children nd = Some cs ->
  children_of (set_list h (children nd) cs') n = Ok cs'.
Proof.
  intros Hn Hl. apply (children_of_Ok _ n nd); [done|]. simpl.
  apply list_lookup_insert_eq. by eapply lookup_lt_Some.
Qed.

(** C2, as the code has it.  [remove_child] of a node that is not among the
    children raises [ValueError] and leaves the store, so the children, as
    they were; [remove_child] of a node that is among the children deletes
    its first occurrence and nothing else. *)
Theorem remove_child_first_or_raise {T : Type} (h : heap T) (n c : nref)
    (nd : node T) (cs : list nref) :
  nodes h !! n = Some nd -> lists h !! children nd = Some cs ->
  (c ∉ cs -> remove_child n c h = (Raise ValueError, h)) /\
  (c ∈ cs ->
   exists pre post : list nref,
     cs = pre ++ c :: post /\ (c ∉ pre) /\
     remove_child n c h = (Ok tt, set_list h (children nd) (pre ++ post)) /\
     children_of (set_list h (children nd) (pre ++ post)) n
       = Ok (pre ++ post)).
Proof.
  intros Hn Hl. rewrite (remove_child_eq h n nd cs c Hn Hl). split.
  - intros Hnotin. by rewrite py_remove_absent.
  - intros Hin. apply list_elem_of_split_l in Hin as (pre & post & -> & Hpre).
    exists pre, post. rewrite py_remove_first by done.
    split; [done|]. split; [done|]. split; [done|].
    by eapply children_of_set_list.
Qed.

(** C2 as stated fails: removing a node that is not a child is not a no-op,
    the call raises. *)
Lemma remove_child_absent_counterexample :
  ~ (forall (h : heap string) (n c : nref) (nd : node string)
            (cs : list nref),
        nodes h !! n = Some nd -> lists h !! children nd = Some cs ->
        c ∉ cs -> remove_child n c h = (Ok tt, h)).
Proof.
  intros H.
  specialize (H heap_ABDEC 0%nat 3%nat _ [1; 2]%nat eq_refl eq_refl).
  assert (3%nat ∉ [1; 2]%nat) as Hnotin.
  { intros Hin. repeat (apply elem_of_cons in Hin as [Heq|Hin];
                        [discriminate|]). by apply elem_of_nil in Hin. }
  specialize (H Hnotin). vm_compute in H. discriminate.
Qed.

(** C5, as the code has it.  When [x] is not already among the children of
    [a], [add_child] followed by [remove_child] brings the children of [a],
    and the whole store, back to what they were. *)
Theorem add_then_remove_child {T : Type} (h : heap T) (a x : nref)
    (nd : node T) (cs : list nref) :
  nodes h !! a = Some nd -> lists h !! children nd = Some cs ->
  x ∉ cs ->
  exists h1 h2 : heap T,
    add_child a x h = (Ok tt, h1) /\
    remove_child a x h1 = (Ok tt, h2) /\
    children_of h2 a = Ok cs /\
    h2 = h.
Proof.
  intros Hn Hl Hnotin.
  exists (set_list h (children nd) (cs ++ [x])), h.
  split; [by apply add_child_eq|].
  assert (lists (set_list h (children nd) (cs ++ [x])) !! children nd
          = Some (cs ++ [x])) as Hl'.
  { simpl. apply list_lookup_insert_eq. by eapply lookup_lt_Some. }
  rewrite (remove_child_eq (set_list h (children nd) (cs ++ [x]))
             a nd (cs ++ [x]) x Hn Hl').
  rewrite py_remove_first by done. rewrite app_nil_r.
  split; [|split; [by eapply children_of_Ok|done]].
  f_equal. unfold set_list. simpl. rewrite list_insert_insert_eq.
  rewrite list_insert_id by done. by destruct h.
Qed.

(** C5 as stated fails: when [x] is already a child, [remove_child] deletes
    the earlier occurrence and the order changes. *)
Lemma add_then_remove_child_counterexample :
  ~ (forall (h : heap string) (a x : nref) (nd : node string)
            (cs : list nref),
        nodes h !! a = Some nd -> lists h !! children nd = Some cs ->
        exists h1 h2 : heap string,
          add_child a x h = (Ok tt, h1) /\
          remove_child a x h1 = (Ok tt, h2) /\
          children_of h2 a = Ok cs).
Proof.
  intros H.
  destruct (H heap_ABDEC 0%nat 1%nat _ [1; 2]%nat eq_refl eq_refl)
    as (h1 & h2 & Hadd & Hrem & Hcs).
  vm_compute in Hadd. injection Hadd as <-.
  vm_compute in Hrem. injection Hrem as <-.
  vm_compute in Hcs. discriminate.
Qed.

(** ** The shared default list *)

(** C4.  Two nodes made one after the other without a [children] argument
    are distinct objects holding one and the same list object, the default
    value of the parameter: after [add_child] on the first, the second has
    children too and the added node is among them. *)
Theorem default_children_shared {T : Type} (h : heap T)
    (par1 par2 : option nref) (cont1 cont2 : option T) (c : nref) :
  is_Some (lists h !! default_children) ->
  exists (a b : nref) (h1 h2 h3 : heap T),
    AbstractNode_init par1 cont1 None h = (Ok a, h1) /\
    AbstractNode_init par2 cont2 None h1 = (Ok b, h2) /\
    a ≠ b /\
    add_child a c h2 = (Ok tt, h3) /\
    has_children h3 b = Ok true /\
    exists (l : lref) (cs : list nref),
      get_children h3 a = Ok l /\ get_children h3 b = Ok l /\
      deref_list h3 l = Ok cs /\ c ∈ cs.
Proof.
  intros [cs0 Hdef].
  set (na := Node par1 cont1 default_children).
  set (nb := Node par2 cont2 default_children).
  set (h2 := Heap ((nodes h ++ [na]) ++ [nb]) (lists h)).
  assert (nodes h2 !! length (nodes h) = Some na) as Ha.
  { simpl. rewrite lookup_app_l by (rewrite length_app; simpl; lia).
    by apply list_lookup_middle. }
  assert (nodes h2 !! S (length (nodes h)) = Some nb) as Hb.
  { simpl. apply list_lookup_middle. rewrite length_app. simpl. lia. }
  assert (lists (set_list h2 default_children (cs0 ++ [c]))
            !! default_children = Some (cs0 ++ [c])) as Hl.
  { simpl. apply list_lookup_insert_eq. by eapply lookup_lt_Some. }
  exists (length (nodes h)), (S (length (nodes h))).
  exists (Heap (nodes h ++ [na]) (lists h)), h2,
         (set_list h2 default_children (cs0 ++ [c])).
  split; [done|]. split.
  { unfold AbstractNode_init. simpl. by rewrite length_app, Nat.add_1_r. }
  split; [lia|]. split; [by apply (add_child_eq h2 _ na cs0)|].
  split.
  - unfold has_children.
    rewrite (children_of_Ok (set_list h2 default_children (cs0 ++ [c]))
               _ nb (cs0 ++ [c]) Hb Hl). simpl.
    rewrite length_app. simpl. f_equal. apply Z.ltb_lt. lia.
  - exists default_children, (cs0 ++ [c]).
    unfold get_children, deref, deref_list. simpl nodes.
    change ((nodes h ++ [na]) ++ [nb]) with (nodes h2).
    rewrite Ha, Hb, Hl. repeat split.
    apply elem_of_app. right. constructor.
Qed.

(** ** The empty tree *)

(** C3.  A tree made without root is empty, and each facade query on it
    fails with the error of an attribute access on [None], whatever the
    store and the stack. *)
Theorem empty_tree_queries_fail {T : Type} (h : heap T) (fuel : nat) :
  AbstractTree.is_empty (AbstractTree.init None) = true /\
  AbstractTree.get_leaves fuel h (AbstractTree.init None)
    = Raise AttributeError /\
  AbstractTree.get_size fuel h (AbstractTree.init None)
    = Raise AttributeError /\
  AbstractTree.get_height fuel h (AbstractTree.init None)
    = Raise AttributeError /\
  AbstractTree.get_depth fuel h (AbstractTree.init None)
    = Raise AttributeError.
Proof. repeat split. Qed.

(** ** Descendants *)

(** C1.  On [A(B(D), C)] the code of [get_descendants] returns the children
    followed by one list per child, [[B, C, [D, []], []]], where the
    contract asks for the flat pre-order sequence [[B, D, C]]. *)
Theorem get_descendants_nested :
  build_ABDC class_heap = (Ok (0, 1, 2, 3)%nat, heap_ABDC) /\
  returns (fun fuel => get_descendants fuel heap_ABDC 0%nat)
    [VNode 1; VNode 2; VList [VNode 3; VList []]; VList []]%nat /\
  returns (fun fuel => descendants_preorder fuel heap_ABDC 0%nat)
    [1; 3; 2]%nat /\
  ~ returns (fun fuel => get_descendants fuel heap_ABDC 0%nat)
      (map VNode [1; 3; 2]%nat).
Proof.
  assert (returns (fun fuel => get_descendants fuel heap_ABDC 0%nat)
            [VNode 1; VNode 2; VList [VNode 3; VList []]; VList []]%nat)
    as Hcode.
  { exists 3%nat. intros fuel Hfuel.
    do 3 (destruct fuel as [|fuel]; [lia|]). reflexivity. }
  split; [reflexivity|]. split; [exact Hcode|]. split.
  - exists 3%nat. intros fuel Hfuel.
    do 3 (destruct fuel as [|fuel]; [lia|]). reflexivity.
  - intros Hflat. pose proof (returns_unique _ _ _ Hcode Hflat) as Heq.
    discriminate.
Qed.

(** ** Queries composed from the queries on the neighbours *)

Lemma comprehension_returns_all {A B : Type} (f : nat -> A -> result B)
    xs ys :
  Forall2 (fun x y => returns (fun fuel => f fuel x) y) xs ys ->
  returns (fun fuel => comprehension (f fuel) xs) ys.
Proof.
  induction 1 as [|x y xs ys [k1 Hy] _ [k2 Hys]].
  - by exists 0%nat.
  - exists (k1 `max` k2)%nat. intros fuel Hfuel. simpl.
    rewrite Hy by lia. simpl. by rewrite Hys by lia.
Qed.

Lemma get_parent_inv {T : Type} (h : heap T) n o :
  get_parent h n = Ok o -> exists nd, nodes h !! n = Some nd /\ parent nd = o.
Proof.
  unfold get_parent, deref. destruct (nodes h !! n) as [nd|]; [|done].
  simpl. intros [= <-]. by exists nd.
Qed.

Lemma get_size_compose {T : Type} (h : heap T) n cs ss :
  children_of h n = Ok cs ->
  Forall2 (fun c s => returns (fun fuel => get_size fuel h c) s) cs ss ->
  returns (fun fuel => get_size fuel h n) (py_sum ss + 1).
Proof.
  intros Hcs Hall.
  apply (comprehension_returns_all (fun fuel => get_size fuel h)) in Hall.
  destruct Hall as [k Hk]. exists (S k). intros [|fuel] Hfuel; [lia|].
  simpl. rewrite Hcs. simpl. by rewrite Hk by lia.
Qed.

Lemma get_height_compose {T : Type} (h : heap T) n cs hs :
  children_of h n = Ok cs ->
  Forall2 (fun c v => returns (fun fuel => get_height fuel h c) v) cs hs ->
  returns (fun fuel => get_height fuel h n)
          (match hs with [] => 0 | x :: xs => foldl Z.max x xs + 1 end).
Proof.
  intros Hcs Hall. apply children_of_inv in Hcs as (nd & Hn & Hl).
  apply (get_height_node h n nd cs hs Hn Hl).
  by apply (comprehension_returns_all (fun fuel => get_height fuel h)).
Qed.

Lemma get_leaves_leaf {T : Type} (h : heap T) n :
  children_of h n = Ok [] ->
  returns (fun fuel => get_leaves fuel h n) [n].
Proof.
  intros Hcs. exists 1%nat. intros [|fuel] Hfuel; [lia|].
  simpl. unfold is_leaf. by rewrite Hcs.
Qed.

Lemma get_leaves_compose {T : Type} (h : heap T) n c cs ls :
  children_of h n = Ok (c :: cs) ->
  Forall2 (fun c l => returns (fun fuel => get_leaves fuel h c) l)
          (c :: cs) ls ->
  returns (fun fuel => get_leaves fuel h n) (concat ls).
Proof.
  intros Hcs Hall.
  apply (comprehension_returns_all (fun fuel => get_leaves fuel h)) in Hall.
  destruct Hall as [k Hk]. exists (S k). intros [|fuel] Hfuel; [lia|].
  specialize (Hk fuel ltac:(lia)).
  simpl. unfold is_leaf. rewrite Hcs. simpl in Hk |- *.
  by rewrite Hk.
Qed.

Lemma get_depth_compose_root {T : Type} (h : heap T) n :
  get_parent h n = Ok None ->
  returns (fun fuel => get_depth fuel h n) 0.
Proof.
  intros Hp. apply get_parent_inv in Hp as (nd & Hn & Hp).
  exists 1%nat. intros [|fuel] Hfuel; [lia|]. by eapply get_depth_root.
Qed.

Lemma get_depth_compose {T : Type} (h : heap T) n p d :
  get_parent h n = Ok (Some p) ->
  returns (fun fuel => get_depth fuel h p) d ->
  returns (fun fuel => get_depth fuel h n) (d + 1).
Proof.
  intros Hp [k Hk]. apply get_parent_inv in Hp as (nd & Hn & Hp).
  exists (S k). intros [|fuel] Hfuel; [lia|].
  by rewrite (get_depth_step h fuel n nd p Hn Hp), Hk by lia.
Qed.

Lemma get_ancestors_compose_root {T : Type} (h : heap T) n :
  get_parent h n = Ok None ->
  returns (fun fuel => get_ancestors fuel h n) [].
Proof.
  intros Hp. apply get_parent_inv in Hp as (nd & Hn & Hp).
  exists 1%nat. intros [|fuel] Hfuel; [lia|].
  simpl. unfold is_root, deref. rewrite Hn. simpl. by rewrite Hp.
Qed.

Lemma get_ancestors_compose {T : Type} (h : heap T) n p up :
  get_parent h n = Ok (Some p) ->
  returns (fun fuel => get_ancestors fuel h p) up ->
  returns (fun fuel => get_ancestors fuel h n) (p :: up).
Proof.
  intros Hp [k Hk]. apply get_parent_inv in Hp as (nd & Hn & Hp).
  exists (S k). intros [|fuel] Hfuel; [lia|].
  simpl. unfold is_root, deref. rewrite Hn. simpl. rewrite Hp. simpl.
  by rewrite Hk by lia.
Qed.

(** ** The tree [A(B(D, E), C)] *)

(** C10.  In a store where five nodes have the shape [A(B(D, E), C)] with
    consistent parent links: the size of [A] is 5, its height is 2, its
    leaves are [D, E, C] in this order, the depth of [D] is 2 and the
    ancestors of [D] are [B, A]. *)
Theorem shape_ABDEC_queries {T : Type} (h : heap T) (a b c d e : nref) :
  shape_ABDEC h a b c d e ->
  returns (fun fuel => get_size fuel h a) 5 /\
  returns (fun fuel => get_height fuel h a) 2 /\
  returns (fun fuel => get_leaves fuel h a) [d; e; c] /\
  returns (fun fuel => get_depth fuel h d) 2 /\
  returns (fun fuel => get_ancestors fuel h d) [b; a].
Proof.
  intros (Ha & Hb & Hc & Hd & He & Hpa & Hpb & Hpc & Hpd & Hpe).
  split; [|split; [|split; [|split]]].
  - pose proof (get_size_compose h c [] [] Hc (List.Forall2_nil _)) as Sc.
    pose proof (get_size_compose h d [] [] Hd (List.Forall2_nil _)) as Sd.
    pose proof (get_size_compose h e [] [] He (List.Forall2_nil _)) as Se.
    assert (returns (fun fuel => get_size fuel h b) 3) as Sb.
    { apply (get_size_compose h b [d; e] [1; 1] Hb). by repeat constructor. }
    apply (get_size_compose h a [b; c] [3; 1] Ha). by repeat constructor.
  - pose proof (get_height_compose h c [] [] Hc (List.Forall2_nil _)) as Hhc.
    pose proof (get_height_compose h d [] [] Hd (List.Forall2_nil _)) as Hhd.
    pose proof (get_height_compose h e [] [] He (List.Forall2_nil _)) as Hhe.
    assert (returns (fun fuel => get_height fuel h b) 1) as Hhb.
    { apply (get_height_compose h b [d; e] [0; 0] Hb). by repeat constructor. }
    apply (get_height_compose h a [b; c] [1; 0] Ha). by repeat constructor.
  - assert (returns (fun fuel => get_leaves fuel h b) [d; e]) as Lb.
    { apply (get_leaves_compose h b d [e] [[d]; [e]] Hb).
      repeat constructor; by apply get_leaves_leaf. }
    apply (get_leaves_compose h a b [c] [[d; e]; [c]] Ha).
    repeat constructor; [done|by apply get_leaves_leaf].
  - apply (get_depth_compose h d b 1 Hpd).
    apply (get_depth_compose h b a 0 Hpb).
    by apply get_depth_compose_root.
  - apply (get_ancestors_compose h d b [a] Hpd).
    apply (get_ancestors_compose h b a [] Hpb).
    by apply get_ancestors_compose_root.
Qed.

(** ** The theorems on the sample stores *)

Ltac tree_below_tac :=
  repeat first
    [ eapply tree_below_node; [reflexivity|reflexivity|]
    | constructor ].

Ltac not_elem_of_tac :=
  let Hin := fresh "Hin" in
  intros Hin;
  repeat (apply elem_of_cons in Hin as [Hin|Hin]; [discriminate|]);
  by apply elem_of_nil in Hin.

(** The size theorem at the root of [A(B(D, E), C)]. *)
Lemma get_size_one_plus_children_witness :
  tree_below heap_ABDEC 0%nat /\
  exists (cs : list nref) (ss : list Z) (s : Z) (ds : list nref),
    children_of heap_ABDEC 0%nat = Ok cs /\
    Forall2 (fun c sc => returns (fun fuel => get_size fuel heap_ABDEC c) sc)
            cs ss /\
    returns (fun fuel => get_size fuel heap_ABDEC 0%nat) s /\
    s = 1 + foldr Z.add 0 ss /\
    0 < s /\
    returns (fun fuel => descendants_preorder fuel heap_ABDEC 0%nat) ds /\
    s = 1 + Z.of_nat (length ds).
Proof.
  assert (tree_below heap_ABDEC 0%nat) as Ht by tree_below_tac.
  split; [exact Ht|]. exact (get_size_one_plus_children heap_ABDEC 0%nat Ht).
Defined.

(** The height theorem at the node [B] of [A(B(D, E), C)]. *)
Lemma get_height_zero_iff_leaf_witness :
  tree_below heap_ABDEC 1%nat /\
  exists (ht : Z) (leaf : bool),
    returns (fun fuel => get_height fuel heap_ABDEC 1%nat) ht /\
    is_leaf heap_ABDEC 1%nat = Ok leaf /\
    (ht = 0 <-> leaf = true) /\
    (leaf = false ->
     exists (cs : list nref) (hs : list Z) (m : Z),
       children_of heap_ABDEC 1%nat = Ok cs /\
       Forall2 (fun c hc =>
                  returns (fun fuel => get_height fuel heap_ABDEC c) hc)
               cs hs /\
       m ∈ hs /\ Forall (fun x => x <= m) hs /\
       ht = 1 + m).
Proof.
  assert (tree_below heap_ABDEC 1%nat) as Ht by tree_below_tac.
  split; [exact Ht|]. exact (get_height_zero_iff_leaf heap_ABDEC 1%nat Ht).
Defined.

(** The depth theorem at the node [D] of [A(B(D, E), C)], whose parent chain
    ends, and at a node of a two-node parent cycle. *)
Lemma get_depth_parent_chain_witness :
  (chain_ends heap_ABDEC 3%nat /\
   exists d : Z,
     returns (fun fuel => get_depth fuel heap_ABDEC 3%nat) d /\
     0 <= d /\
     forall nd, nodes heap_ABDEC !! 3%nat = Some nd ->
       match parent nd with
       | None => d = 0
       | Some p =>
           exists dp, returns (fun fuel => get_depth fuel heap_ABDEC p) dp /\
                      d = dp + 1
       end) /\
  ((exists j m, ancestor_at heap_parent_cycle j 0%nat = Some m /\
                on_parent_cycle heap_parent_cycle m) /\
   overflows (fun fuel => get_depth fuel heap_parent_cycle 0%nat)).
Proof.
  assert (chain_ends heap_ABDEC 3%nat) as Hends.
  { eapply chain_ends_step; [reflexivity|reflexivity|].
    eapply chain_ends_step; [reflexivity|reflexivity|].
    eapply chain_ends_root; reflexivity. }
  assert (exists j m, ancestor_at heap_parent_cycle j 0%nat = Some m /\
                      on_parent_cycle heap_parent_cycle m) as Hcyc.
  { exists 0%nat, 0%nat. split; [reflexivity|].
    exists 2%nat. split; [lia|reflexivity]. }
  split.
  - split; [exact Hends|].
    exact (proj1 (get_depth_parent_chain heap_ABDEC 3%nat) Hends).
  - split; [exact Hcyc|].
    exact (proj2 (get_depth_parent_chain heap_parent_cycle 0%nat) Hcyc).
Defined.

(** The siblings theorem at the node [D] of [A(B(D, E), C)]. *)
Lemma get_siblings_others_witness :
  nodes heap_ABDEC !! 3%nat = Some (Node (Some 1%nat) (Some "D"%string) 4%nat) /\
  exists sibs : list nref,
    get_siblings heap_ABDEC 3%nat = Ok sibs /\
    (3%nat ∉ sibs) /\
    (forall c, c ∈ sibs <-> c ∈ [3; 4]%nat /\ c ≠ 3%nat) /\
    Z.of_nat (length sibs) =
      Z.of_nat (length [3; 4]%nat) - Z.of_nat (occurrences 3 [3; 4]%nat) /\
    (occurrences 3 [3; 4]%nat = 1%nat ->
     Z.of_nat (length sibs) = Z.of_nat (length [3; 4]%nat) - 1).
Proof.
  split; [reflexivity|].
  exact (get_siblings_others heap_ABDEC 3%nat _ eq_refl _ [3; 4]%nat
           eq_refl eq_refl).
Defined.

(** Removing from [A] the node [D], which is not a child of [A], and the node
    [C], which is. *)
Lemma remove_child_first_or_raise_witness :
  nodes heap_ABDEC !! 0%nat = Some (Node None (Some "A"%string) 1%nat) /\
  lists heap_ABDEC !! 1%nat = Some [1; 2]%nat /\
  (3%nat ∉ [1; 2]%nat) /\
  remove_child 0%nat 3%nat heap_ABDEC = (Raise ValueError, heap_ABDEC) /\
  2%nat ∈ [1; 2]%nat /\
  exists pre post : list nref,
    [1; 2]%nat = pre ++ 2%nat :: post /\ (2%nat ∉ pre) /\
    remove_child 0%nat 2%nat heap_ABDEC
      = (Ok tt, set_list heap_ABDEC 1%nat (pre ++ post)) /\
    children_of (set_list heap_ABDEC 1%nat (pre ++ post)) 0%nat
      = Ok (pre ++ post).
Proof.
  assert (3%nat ∉ [1; 2]%nat) as Hnotin by not_elem_of_tac.
  assert (2%nat ∈ [1; 2]%nat) as Hin by (right; left).
  split; [reflexivity|]. split; [reflexivity|]. split; [exact Hnotin|].
  split.
  - exact (proj1 (remove_child_first_or_raise heap_ABDEC 0%nat 3%nat _
                    [1; 2]%nat eq_refl eq_refl) Hnotin).
  - split; [exact Hin|].
    exact (proj2 (remove_child_first_or_raise heap_ABDEC 0%nat 2%nat _
                    [1; 2]%nat eq_refl eq_refl) Hin).
Defined.

(** Adding [D] to the children of [A] and removing it again. *)
Lemma add_then_remove_child_witness :
  nodes heap_ABDEC !! 0%nat = Some (Node None (Some "A"%string) 1%nat) /\
  lists heap_ABDEC !! 1%nat = Some [1; 2]%nat /\
  (3%nat ∉ [1; 2]%nat) /\
  exists h1 h2 : heap string,
    add_child 0%nat 3%nat heap_ABDEC = (Ok tt, h1) /\
    remove_child 0%nat 3%nat h1 = (Ok tt, h2) /\
    children_of h2 0%nat = Ok [1; 2]%nat /\
    h2 = heap_ABDEC.
Proof.
  assert (3%nat ∉ [1; 2]%nat) as Hnotin by not_elem_of_tac.
  split; [reflexivity|]. split; [reflexivity|]. split; [exact Hnotin|].
  exact (add_then_remove_child heap_ABDEC 0%nat 3%nat _ [1; 2]%nat
           eq_refl eq_refl Hnotin).
Defined.

(** Two nodes made without [children] right after the class statements. *)
Lemma default_children_shared_witness :
  is_Some (lists (@class_heap string) !! default_children) /\
  exists (a b : nref) (h1 h2 h3 : heap string),
    AbstractNode_init None (Some "a"%string) None class_heap = (Ok a, h1) /\
    AbstractNode_init None (Some "b"%string) None h1 = (Ok b, h2) /\
    a ≠ b /\
    add_child a 7%nat h2 = (Ok tt, h3) /\
    has_children h3 b = Ok true /\
    exists (l : lref) (cs : list nref),
      get_children h3 a = Ok l /\ get_children h3 b = Ok l /\
      deref_list h3 l = Ok cs /\ 7%nat ∈ cs.
Proof.
  assert (is_Some (lists (@class_heap string) !! default_children)) as Hdef
    by (exists []; reflexivity).
  split; [exact Hdef|].
  exact (default_children_shared class_heap None None
           (Some "a"%string) (Some "b"%string) 7%nat Hdef).
Defined.

(** The store that [build_ABDEC] makes has the shape, hence the results. *)
Lemma shape_ABDEC_queries_witness :
  build_ABDEC class_heap = (Ok (0, 1, 2, 3, 4)%nat, heap_ABDEC) /\
  shape_ABDEC heap_ABDEC 0%nat 1%nat 2%nat 3%nat 4%nat /\
  returns (fun fuel => get_size fuel heap_ABDEC 0%nat) 5 /\
  returns (fun fuel => get_height fuel heap_ABDEC 0%nat) 2 /\
  returns (fun fuel => get_leaves fuel heap_ABDEC 0%nat) [3; 4; 2]%nat /\
  returns (fun fuel => get_depth fuel heap_ABDEC 3%nat) 2 /\
  returns (fun fuel => get_ancestors fuel heap_ABDEC 3%nat) [1; 0]%nat.
Proof.
  assert (shape_ABDEC heap_ABDEC 0%nat 1%nat 2%nat 3%nat 4%nat) as Hshape
    by (repeat split; reflexivity).
  split; [reflexivity|]. split; [exact Hshape|].
  exact (shape_ABDEC_queries heap_ABDEC 0%nat 1%nat 2%nat 3%nat 4%nat Hshape).
Defined.

(** ** Leaves *)

Lemma get_leaves_returns {T : Type} (h : heap T) n :
  tree_below h n -> exists ls, returns (fun fuel => get_leaves fuel h n) ls.
Proof.
  revert n. apply tree_below_ind'. intros n nd cs Hn Hl _ IH.
  pose proof (children_of_Ok h n nd cs Hn Hl) as Hcs.
  destruct cs as [|c cs].
  - exists [n]. by apply get_leaves_leaf.
  - apply (comprehension_returns (fun fuel => get_leaves fuel h)) in IH.
    destruct IH as (lss & Hall & _). exists (concat lss).
    by eapply get_leaves_compose.
Qed.

Lemma is_leaf_inv {T : Type} (h : heap T) n b :
  is_leaf h n = Ok b ->
  exists cs, children_of h n = Ok cs /\ b = (Z.of_nat (length cs) =? 0).
Proof.
  unfold is_leaf. intros H. inv_bind H as cs Hcs. injection H as <-. eauto.
Qed.

Lemma get_leaves_fuel_leaves {T : Type} (h : heap T) fuel n ls :
  get_leaves fuel h n = Ok ls ->
  ls ≠ [] /\ Forall (fun l => is_leaf h l = Ok true) ls.
Proof.
  revert n ls. induction fuel as [|fuel IH]; intros n ls H; simpl in H.
  - discriminate.
  - inv_bind H as leaf Hleaf. destruct leaf.
    + injection H as <-. split; [done|]. by constructor.
    + inv_bind H as cs Hcs. inv_bind H as lss Hlss. injection H as <-.
      apply is_leaf_inv in Hleaf as (cs' & Hcs' & Hlen).
      rewrite Hcs in Hcs'. injection Hcs' as <-.
      apply comprehension_Forall2 in Hlss.
      destruct Hlss as [|c l cs lss Hc Hrest].
      { simpl in Hlen. discriminate. }
      destruct (IH _ _ Hc) as [Hne Hl]. split.
      * simpl. destruct l; [done|discriminate].
      * simpl. apply Forall_app. split; [done|].
        clear Hcs Hlen Hc Hne Hl.
        induction Hrest as [|c' l' cs' lss' Hc' _ IHr]; simpl; [done|].
        apply Forall_app. split; [by apply (IH _ _ Hc')|done].
Qed.

(** X1.  On a finite acyclic structure [get_leaves] returns a list that is
    not empty and holds only nodes on which [is_leaf] answers true. *)
Theorem get_leaves_nonempty_leaves {T : Type} (h : heap T) (n : nref) :
  tree_below h n ->
  exists ls : list nref,
    returns (fun fuel => get_leaves fuel h n) ls /\
    ls ≠ [] /\
    Forall (fun l => is_leaf h l = Ok true) ls.
Proof.
  intros Ht. destruct (get_leaves_returns h n Ht) as (ls & k & Hk).
  exists ls. split; [by exists k|].
  by apply (get_leaves_fuel_leaves h k n), Hk.
Qed.

(** The theorem at the root of [A(B(D, E), C)]. *)
Lemma get_leaves_nonempty_leaves_witness :
  tree_below heap_ABDEC 0%nat /\
  exists ls : list nref,
    returns (fun fuel => get_leaves fuel heap_ABDEC 0%nat) ls /\
    ls ≠ [] /\
    Forall (fun l => is_leaf heap_ABDEC l = Ok true) ls.
Proof.
  assert (tree_below heap_ABDEC 0%nat) as Ht by tree_below_tac.
  split; [exact Ht|]. exact (get_leaves_nonempty_leaves heap_ABDEC 0%nat Ht).
Defined.

Lemma filter_concat {A : Type} (P : A -> Prop) `{!forall x, Decision (P x)}
    (xss : list (list A)) :
  filter P (concat xss) = concat (List.map (filter P) xss).
Proof.
  induction xss as [|xs xss IH]; simpl; [done|].
  by rewrite filter_app, IH.
Qed.

Lemma get_leaves_fuel_preorder {T : Type} (h : heap T) fuel n ls ds :
  get_leaves fuel h n = Ok ls ->
  descendants_preorder fuel h n = Ok ds ->
  ls = filter (fun m => leafb h m = true) (n :: ds).
Proof.
  revert n ls ds. induction fuel as [|fuel IH]; intros n ls ds Hls Hds.
  - discriminate.
  - simpl in Hls, Hds. inv_bind Hds as cs Hcs. inv_bind Hds as dss Hdss.
    injection Hds as <-. inv_bind Hls as leaf Hleaf.
    pose proof Hleaf as Hleaf'.
    apply is_leaf_inv in Hleaf' as (cs' & Hcs' & ->).
    rewrite Hcs in Hcs'. injection Hcs' as <-.
    apply comprehension_Forall2 in Hdss.
    destruct cs as [|c cs].
    + simpl in Hls. injection Hls as <-.
      apply Forall2_nil_inv_l in Hdss as ->. simpl.
      rewrite filter_cons_True; [done|]. unfold leafb. by rewrite Hleaf.
    + replace (Z.of_nat (length (c :: cs)) =? 0) with false in *
        by (symmetry; apply Z.eqb_neq; simpl; lia).
      rewrite Hcs in Hls. simpl in Hls. inv_bind Hls as lss Hlss.
      injection Hls as <-.
      change (y ← get_leaves fuel h c;
              ys ← comprehension (get_leaves fuel h) cs; Ok (y :: ys))
        with (comprehension (get_leaves fuel h) (c :: cs)) in Hlss.
      apply comprehension_Forall2 in Hlss.
      rewrite filter_cons_False
        by (unfold leafb; rewrite Hleaf; discriminate).
      rewrite filter_concat. f_equal. clear Hcs Hleaf.
      revert dss Hdss.
      induction Hlss as [|c' l' cs' lss' Hc' _ IHr]; intros dss Hdss.
      * by apply Forall2_nil_inv_l in Hdss as ->.
      * apply Forall2_cons_inv_l in Hdss as (d' & dss' & Hd' & Hdss' & ->).
        inv_bind Hd' as d Hd. injection Hd' as <-. simpl.
        f_equal; [|by apply IHr].
        exact (IH _ _ _ Hc' Hd).
Qed.

(** X2.  On a finite acyclic structure the list [get_leaves] returns is the
    pre-order walk from the node, the node first, with every node that has
    children left out: the leaves come in pre-order and none is missed. *)
Theorem get_leaves_preorder_leaves {T : Type} (h : heap T) (n : nref) :
  tree_below h n ->
  exists ls ds : list nref,
    returns (fun fuel => get_leaves fuel h n) ls /\
    returns (fun fuel => descendants_preorder fuel h n) ds /\
    ls = filter (fun m => leafb h m = true) (n :: ds).
Proof.
  intros Ht. destruct (get_leaves_returns h n Ht) as (ls & k1 & Hk1).
  destruct (descendants_preorder_returns h n Ht) as (ds & k2 & Hk2).
  exists ls, ds. split; [by exists k1|]. split; [by exists k2|].
  apply (get_leaves_fuel_preorder h (k1 `max` k2)%nat);
    [apply Hk1|apply Hk2]; lia.
Qed.

(** The theorem at the root of [A(B(D, E), C)]. *)
Lemma get_leaves_preorder_leaves_witness :
  tree_below heap_ABDEC 0%nat /\
  exists ls ds : list nref,
    returns (fun fuel => get_leaves fuel heap_ABDEC 0%nat) ls /\
    returns (fun fuel => descendants_preorder fuel heap_ABDEC 0%nat) ds /\
    ls = filter (fun m => leafb heap_ABDEC m = true) (0%nat :: ds).
Proof.
  assert (tree_below heap_ABDEC 0%nat) as Ht by tree_below_tac.
  split; [exact Ht|]. exact (get_leaves_preorder_leaves heap_ABDEC 0%nat Ht).
Defined.

(** ** Ancestors *)

Lemma get_ancestors_returns {T : Type} (h : heap T) n :
  chain_ends h n ->
  exists up, returns (fun fuel => get_ancestors fuel h n) up.
Proof.
  induction 1 as [n nd Hn Hp|n nd p Hn Hp _ (up & Hup)].
  - exists []. apply get_ancestors_compose_root.
    unfold get_parent, deref. rewrite Hn. simpl. by rewrite Hp.
  - exists (p :: up). apply get_ancestors_compose; [|done].
    unfold get_parent, deref. rewrite Hn. simpl. by rewrite Hp.
Qed.

Lemma is_root_inv {T : Type} (h : heap T) n b :
  is_root h n = Ok b ->
  exists nd, nodes h !! n = Some nd /\
             b = match parent nd with None => true | Some _ => false end.
Proof.
  unfold is_root, deref. destruct (nodes h !! n) as [nd|]; [|done].
  simpl. intros [= <-]. by exists nd.
Qed.

(** With the same stack: the ancestors are the parent chain, their number
    is the depth, and the last of them has no parent. *)
Lemma get_ancestors_fuel_chain {T : Type} (h : heap T) fuel n up :
  get_ancestors fuel h n = Ok up ->
  (forall i, up !! i = ancestor_at h (S i) n) /\
  get_depth fuel h n = Ok (Z.of_nat (length up)) /\
  (forall r, last up = Some r -> is_root h r = Ok true).
Proof.
  revert n up. induction fuel as [|fuel IH]; intros n up H.
  - discriminate.
  - simpl in H. inv_bind H as root Hroot.
    pose proof Hroot as Hroot'.
    apply is_root_inv in Hroot' as (nd & Hn & ->).
    destruct (parent nd) as [p|] eqn:Hp.
    + unfold deref in H. rewrite Hn in H. simpl in H. rewrite Hp in H.
      simpl in H. inv_bind H as up' Hup'. injection H as <-.
      destruct (IH _ _ Hup') as (Hchain & Hdepth & Hlast).
      split; [|split].
      * intros [|i]; simpl; rewrite Hn, Hp; [done|].
        rewrite Hchain. done.
      * rewrite (get_depth_step h fuel n nd p Hn Hp), Hdepth. simpl.
        f_equal. lia.
      * intros r Hr. destruct up' as [|a up'].
        -- simpl in Hr. injection Hr as <-.
           simpl in Hup'. destruct fuel as [|fuel]; [discriminate|].
           simpl in Hup'. inv_bind Hup' as rootp Hrootp.
           destruct rootp; [done|].
           inv_bind Hup' as ndp Hndp. destruct (parent ndp); [|discriminate].
           simpl in Hup'. inv_bind Hup' as up'' Hup''. discriminate.
        -- apply Hlast. exact Hr.
    + injection H as <-. split; [|split].
      * intros i. simpl. by rewrite Hn, Hp.
      * by rewrite (get_depth_root h fuel n nd Hn Hp).
      * intros r Hr. discriminate.
Qed.

(** X3.  When the parent chain of a node is finite, [get_ancestors] returns
    the chain itself: its entry [i] is the node [i + 1] parent links above,
    nearest first, and nothing follows the last; the node is not among its
    ancestors; the last ancestor has no parent; and the number of
    ancestors is what [get_depth] returns. *)
Theorem get_ancestors_parent_chain {T : Type} (h : heap T) (n : nref) :
  chain_ends h n ->
  exists up : list nref,
    returns (fun fuel => get_ancestors fuel h n) up /\
    (forall i, up !! i = ancestor_at h (S i) n) /\
    (n ∉ up) /\
    (forall r, last up = Some r -> is_root h r = Ok true) /\
    returns (fun fuel => get_depth fuel h n) (Z.of_nat (length up)).
Proof.
  intros Hends. destruct (get_ancestors_returns h n Hends) as (up & k & Hk).
  destruct (get_ancestors_fuel_chain h k n up (Hk k (le_n _)))
    as (Hchain & Hdepth & Hlast).
  exists up. split; [by exists k|]. split; [exact Hchain|].
  split; [|split; [exact Hlast|]].
  - intros Hin. apply list_elem_of_lookup in Hin as [i Hi].
    rewrite Hchain in Hi.
    assert (on_parent_cycle h n) as Hcyc by (exists (S i); split; [lia|done]).
    pose proof (endless_chain_overflows h k n (parent_cycle_endless h n Hcyc))
      as Hover.
    rewrite Hdepth in Hover. discriminate.
  - exists k. intros fuel Hfuel.
    by apply (get_ancestors_fuel_chain h fuel n up), Hk.
Qed.

(** The theorem at the node [D] of [A(B(D, E), C)]. *)
Lemma get_ancestors_parent_chain_witness :
  chain_ends heap_ABDEC 3%nat /\
  exists up : list nref,
    returns (fun fuel => get_ancestors fuel heap_ABDEC 3%nat) up /\
    (forall i, up !! i = ancestor_at heap_ABDEC (S i) 3%nat) /\
    (3%nat ∉ up) /\
    (forall r, last up = Some r -> is_root heap_ABDEC r = Ok true) /\
    returns (fun fuel => get_depth fuel heap_ABDEC 3%nat)
            (Z.of_nat (length up)).
Proof.
  assert (chain_ends heap_ABDEC 3%nat) as Hends.
  { eapply chain_ends_step; [reflexivity|reflexivity|].
    eapply chain_ends_step; [reflexivity|reflexivity|].
    eapply chain_ends_root; reflexivity. }
  split; [exact Hends|].
  exact (get_ancestors_parent_chain heap_ABDEC 3%nat Hends).
Defined.

(** ** Height, leaves and size together *)

Lemma foldr_add_elem (xs : list Z) (x : Z) :
  Forall (fun y => 0 < y) xs -> x ∈ xs -> x <= foldr Z.add 0 xs.
Proof.
  induction 1 as [|y ys Hy Hys IH]; intros Hin.
  - by apply elem_of_nil in Hin.
  - simpl. pose proof (foldr_add_pos ys Hys).
    apply elem_of_cons in Hin as [->|Hin]; [lia|]. specialize (IH Hin). lia.
Qed.

Lemma get_height_fuel_lt_size {T : Type} (h : heap T) fuel n ht s :
  get_height fuel h n = Ok ht -> get_size fuel h n = Ok s -> ht < s.
Proof.
  revert n ht s. induction fuel as [|fuel IH]; intros n ht s Hht Hs.
  - discriminate.
  - pose proof (get_size_pos h _ _ _ Hs) as Hpos.
    simpl in Hht, Hs. inv_bind Hs as cs Hcs. inv_bind Hs as ss Hss.
    injection Hs as <-. inv_bind Hht as leaf Hleaf. destruct leaf.
    + injection Hht as <-. exact Hpos.
    + rewrite Hcs in Hht. simpl in Hht. inv_bind Hht as hs Hhs.
      inv_bind Hht as m Hm. injection Hht as <-.
      apply py_max_spec in Hm as [Hin _].
      apply comprehension_Forall2 in Hss, Hhs. rewrite py_sum_foldr.
      enough (m < foldr Z.add 0 ss) by lia. clear Hcs Hleaf Hpos.
      revert hs Hhs Hin.
      induction Hss as [|c sc cs ss Hc Hrest IHr]; intros hs Hhs Hin.
      * apply Forall2_nil_inv_l in Hhs as ->. by apply elem_of_nil in Hin.
      * apply Forall2_cons_inv_l in Hhs as (hc & hs' & Hhc & Hhs' & ->).
        assert (0 <= foldr Z.add 0 ss) as Hsum.
        { apply foldr_add_pos. clear IHr Hhs'.
          induction Hrest; constructor; [by eapply get_size_pos|done]. }
        pose proof (get_size_pos h _ _ _ Hc). simpl.
        apply elem_of_cons in Hin as [->|Hin].
        -- pose proof (IH _ _ _ Hhc Hc). lia.
        -- specialize (IHr _ Hhs' Hin). lia.
Qed.

Lemma get_leaves_fuel_le_size {T : Type} (h : heap T) fuel n ls s :
  get_leaves fuel h n = Ok ls -> get_size fuel h n = Ok s ->
  Z.of_nat (length ls) <= s.
Proof.
  revert n ls s. induction fuel as [|fuel IH]; intros n ls s Hls Hs.
  - discriminate.
  - pose proof (get_size_pos h _ _ _ Hs) as Hpos.
    simpl in Hls, Hs. inv_bind Hs as cs Hcs. inv_bind Hs as ss Hss.
    injection Hs as <-. inv_bind Hls as leaf Hleaf. destruct leaf.
    + injection Hls as <-. simpl. lia.
    + rewrite Hcs in Hls. simpl in Hls. inv_bind Hls as lss Hlss.
      injection Hls as <-.
      apply comprehension_Forall2 in Hss, Hlss. rewrite py_sum_foldr.
      enough (Z.of_nat (length (concat lss)) <= foldr Z.add 0 ss) by lia.
      clear Hcs Hleaf Hpos. revert lss Hlss.
      induction Hss as [|c sc cs ss Hc _ IHr]; intros lss Hlss.
      * by apply Forall2_nil_inv_l in Hlss as ->.
      * apply Forall2_cons_inv_l in Hlss as (l & lss' & Hl & Hlss' & ->).
        simpl. rewrite length_app. specialize (IHr _ Hlss').
        pose proof (IH _ _ _ Hl Hc). lia.
Qed.

(** X4.  On a finite acyclic structure the three walks agree on their
    bounds: the height is less than the size, and the number of leaves is
    at least 1 and at most the size. *)
Theorem get_height_leaves_below_size {T : Type} (h : heap T) (n : nref) :
  tree_below h n ->
  exists (ht s : Z) (ls : list nref),
    returns (fun fuel => get_height fuel h n) ht /\
    returns (fun fuel => get_size fuel h n) s /\
    returns (fun fuel => get_leaves fuel h n) ls /\
    0 <= ht < s /\
    1 <= Z.of_nat (length ls) <= s.
Proof.
  intros Ht.
  destruct (get_height_returns h n Ht) as (ht & k1 & Hk1).
  destruct (get_size_returns h n Ht) as (s & k2 & Hk2).
  destruct (get_leaves_returns h n Ht) as (ls & k3 & Hk3).
  exists ht, s, ls.
  split; [by exists k1|]. split; [by exists k2|]. split; [by exists k3|].
  set (k := (k1 `max` (k2 `max` k3))%nat).
  pose proof (Hk1 k ltac:(lia)) as H1.
  pose proof (Hk2 k ltac:(lia)) as H2.
  pose proof (Hk3 k ltac:(lia)) as H3.
  pose proof (get_height_nonneg h k n ht H1).
  pose proof (get_height_fuel_lt_size h k n ht s H1 H2).
  pose proof (get_leaves_fuel_le_size h k n ls s H3 H2).
  destruct (get_leaves_fuel_leaves h k n ls H3) as [Hne _].
  destruct ls; [done|]. simpl in *. lia.
Qed.

(** The theorem at the root of [A(B(D, E), C)]. *)
Lemma get_height_leaves_below_size_witness :
  tree_below heap_ABDEC 0%nat /\
  exists (ht s : Z) (ls : list nref),
    returns (fun fuel => get_height fuel heap_ABDEC 0%nat) ht /\
    returns (fun fuel => get_size fuel heap_ABDEC 0%nat) s /\
    returns (fun fuel => get_leaves fuel heap_ABDEC 0%nat) ls /\
    0 <= ht < s /\
    1 <= Z.of_nat (length ls) <= s.
Proof.
  assert (tree_below heap_ABDEC 0%nat) as Ht by tree_below_tac.
  split; [exact Ht|].
  exact (get_height_leaves_below_size heap_ABDEC 0%nat Ht).
Defined.

(** ** What the writers change and what they leave *)

Lemma set_node_lookup {T : Type} (h : heap T) n nd nd' :
  nodes h !! n = Some nd -> nodes (set_node h n nd') !! n = Some nd'.
Proof. intros Hn. simpl. apply list_lookup_insert_eq. by eapply lookup_lt_Some. Qed.

Lemma set_node_lookup_ne {T : Type} (h : heap T) n m nd' :
  m ≠ n -> nodes (set_node h n nd') !! m = nodes h !! m.
Proof. intros Hne. simpl. by apply list_lookup_insert_ne. Qed.

(** Replacing a node by one with the same [children] keeps the children
    of every node. *)
Lemma set_node_children_of {T : Type} (h : heap T) n nd nd' m :
  nodes h !! n = Some nd -> children nd' = children nd ->
  children_of (set_node h n nd') m = children_of h m.
Proof.
  intros Hn Hch. unfold children_of, deref.
  destruct (decide (m = n)) as [->|Hne].
  - rewrite (set_node_lookup h n nd nd' Hn), Hn. simpl. by rewrite Hch.
  - by rewrite (set_node_lookup_ne h n m nd' Hne).
Qed.

(** X5.  [add_child] appends the child at the end of the list object that
    the node holds and changes nothing else: no node object is touched, so
    the parent of the child (and of every node) is what it was; the nodes
    that hold the same list object see the new child; the nodes that hold
    another list object keep their children.  Afterwards the node has
    children and is not a leaf. *)
Theorem add_child_appends_only {T : Type} (h : heap T) (a c : nref)
    (nd : node T) (cs : list nref) :
  nodes h !! a = Some nd -> lists h !! children nd = Some cs ->
  exists h' : heap T,
    add_child a c h = (Ok tt, h') /\
    nodes h' = nodes h /\
    children_of h' a = Ok (cs ++ [c]) /\
    has_children h' a = Ok true /\
    is_leaf h' a = Ok false /\
    (forall m, get_parent h' m = get_parent h m) /\
    (forall m md, nodes h !! m = Some md -> children md = children nd ->
                  children_of h' m = Ok (cs ++ [c])) /\
    (forall m md, nodes h !! m = Some md -> children md ≠ children nd ->
                  children_of h' m = children_of h m).
Proof.
  intros Hn Hl. exists (set_list h (children nd) (cs ++ [c])).
  assert (lists (set_list h (children nd) (cs ++ [c])) !! children nd
          = Some (cs ++ [c])) as Hl'.
  { simpl. apply list_lookup_insert_eq. by eapply lookup_lt_Some. }
  pose proof (children_of_Ok (set_list h (children nd) (cs ++ [c]))
                a nd (cs ++ [c]) Hn Hl') as Hcs.
  split; [by apply add_child_eq|]. split; [done|]. split; [exact Hcs|].
  assert (0 < Z.of_nat (length (cs ++ [c]))) as Hlen
    by (rewrite length_app; simpl; lia).
  split; [|split; [|split; [|split]]].
  - unfold has_children. rewrite Hcs. simpl. f_equal. by apply Z.ltb_lt.
  - unfold is_leaf. rewrite Hcs. simpl. f_equal. apply Z.eqb_neq. lia.
  - done.
  - intros m md Hm Heq.
    apply (children_of_Ok (set_list h (children nd) (cs ++ [c])) m md);
      [done|]. by rewrite Heq.
  - intros m md Hm Hne. unfold children_of, deref, deref_list. simpl.
    rewrite Hm. simpl. by rewrite list_lookup_insert_ne.
Qed.

(** Adding [D] to the children of [A] in [A(B(D, E), C)]. *)
Lemma add_child_appends_only_witness :
  nodes heap_ABDEC !! 0%nat = Some (Node None (Some "A"%string) 1%nat) /\
  lists heap_ABDEC !! 1%nat = Some [1; 2]%nat /\
  exists h' : heap string,
    add_child 0%nat 3%nat heap_ABDEC = (Ok tt, h') /\
    nodes h' = nodes heap_ABDEC /\
    children_of h' 0%nat = Ok ([1; 2] ++ [3])%nat /\
    has_children h' 0%nat = Ok true /\
    is_leaf h' 0%nat = Ok false /\
    (forall m, get_parent h' m = get_parent heap_ABDEC m) /\
    (forall m md, nodes heap_ABDEC !! m = Some md -> children md = 1%nat ->
                  children_of h' m = Ok ([1; 2] ++ [3])%nat) /\
    (forall m md, nodes heap_ABDEC !! m = Some md -> children md ≠ 1%nat ->
                  children_of h' m = children_of heap_ABDEC m).
Proof.
  split; [reflexivity|]. split; [reflexivity|].
  exact (add_child_appends_only heap_ABDEC 0%nat 3%nat _ [1; 2]%nat
           eq_refl eq_refl).
Defined.

(** X6.  [set_parent] rebinds the parent of the node and nothing else:
    [get_parent] then returns the new parent; the content and the list of
    children of the node stay; every other node object and every list
    object stays, so the children of every node, the new parent among
    them, are what they were. *)
Theorem set_parent_only_parent {T : Type} (h : heap T) (n : nref)
    (p : option nref) (nd : node T) :
  nodes h !! n = Some nd ->
  exists h' : heap T,
    set_parent n p h = (Ok tt, h') /\
    get_parent h' n = Ok p /\
    is_root h' n = Ok (match p with None => true | Some _ => false end) /\
    get_content h' n = Ok (content nd) /\
    get_children h' n = Ok (children nd) /\
    lists h' = lists h /\
    (forall m, m ≠ n -> nodes h' !! m = nodes h !! m) /\
    (forall m, children_of h' m = children_of h m).
Proof.
  intros Hn. set (nd' := Node p (content nd) (children nd)).
  exists (set_node h n nd').
  pose proof (set_node_lookup h n nd nd' Hn) as Hn'.
  split.
  { unfold set_parent, mbind, prog_bind, ask, store_node, deref.
    by rewrite Hn. }
  unfold get_parent, is_root, get_content, get_children, deref.
  rewrite Hn'. repeat (split; [done|]). split.
  - intros m Hne. by apply set_node_lookup_ne.
  - intros m. by apply (set_node_children_of h n nd nd').
Qed.

(** Making [C] the parent of [D] in [A(B(D, E), C)]. *)
Lemma set_parent_only_parent_witness :
  nodes heap_ABDEC !! 3%nat
    = Some (Node (Some 1%nat) (Some "D"%string) 4%nat) /\
  exists h' : heap string,
    set_parent 3%nat (Some 2%nat) heap_ABDEC = (Ok tt, h') /\
    get_parent h' 3%nat = Ok (Some 2%nat) /\
    is_root h' 3%nat = Ok false /\
    get_content h' 3%nat = Ok (Some "D"%string) /\
    get_children h' 3%nat = Ok 4%nat /\
    lists h' = lists heap_ABDEC /\
    (forall m, m ≠ 3%nat -> nodes h' !! m = nodes heap_ABDEC !! m) /\
    (forall m, children_of h' m = children_of heap_ABDEC m).
Proof.
  split; [reflexivity|].
  exact (set_parent_only_parent heap_ABDEC 3%nat (Some 2%nat) _ eq_refl).
Defined.

(** X7.  [set_content] rebinds the content of the node and nothing else:
    [get_content] then returns the new content and [is_empty] tells
    whether it is [None]; the parent and the children of the node, every
    other node object and every list object stay. *)
Theorem set_content_only_content {T : Type} (h : heap T) (n : nref)
    (c : option T) (nd : node T) :
  nodes h !! n = Some nd ->
  exists h' : heap T,
    set_content n c h = (Ok tt, h') /\
    get_content h' n = Ok c /\
    is_empty h' n = Ok (match c with None => true | Some _ => false end) /\
    get_parent h' n = Ok (parent nd) /\
    get_children h' n = Ok (children nd) /\
    lists h' = lists h /\
    (forall m, m ≠ n -> nodes h' !! m = nodes h !! m).
Proof.
  intros Hn. set (nd' := Node (parent nd) c (children nd)).
  exists (set_node h n nd').
  pose proof (set_node_lookup h n nd nd' Hn) as Hn'.
  split.
  { unfold set_content, mbind, prog_bind, ask, store_node, deref.
    by rewrite Hn. }
  unfold get_parent, is_empty, get_content, get_children, deref.
  rewrite Hn'. repeat (split; [done|]).
  intros m Hne. by apply set_node_lookup_ne.
Qed.

(** Emptying the node [D] of [A(B(D, E), C)]. *)
Lemma set_content_only_content_witness :
  nodes heap_ABDEC !! 3%nat
    = Some (Node (Some 1%nat) (Some "D"%string) 4%nat) /\
  exists h' : heap string,
    set_content 3%nat None heap_ABDEC = (Ok tt, h') /\
    get_content h' 3%nat = Ok None /\
    is_empty h' 3%nat = Ok true /\
    get_parent h' 3%nat = Ok (Some 1%nat) /\
    get_children h' 3%nat = Ok 4%nat /\
    lists h' = lists heap_ABDEC /\
    (forall m, m ≠ 3%nat -> nodes h' !! m = nodes heap_ABDEC !! m).
Proof.
  split; [reflexivity|].
  exact (set_content_only_content heap_ABDEC 3%nat None _ eq_refl).
Defined.

(** X8.  [get_children] hands out the list object of the node and
    [set_children] stores the list object it is given, neither copies:
    after [a.set_children(b.get_children())] the two nodes hold one list,
    and a child added to [a] is a child of [b] as well. *)
Theorem set_children_aliases {T : Type} (h : heap T) (a b c : nref)
    (na nb : node T) (cs : list nref) :
  nodes h !! a = Some na -> nodes h !! b = Some nb -> a ≠ b ->
  lists h !! children nb = Some cs ->
  exists (l : lref) (h1 h2 : heap T),
    get_children h b = Ok l /\
    set_children a l h = (Ok tt, h1) /\
    get_children h1 a = Ok l /\
    get_children h1 b = Ok l /\
    children_of h1 a = Ok cs /\
    add_child a c h1 = (Ok tt, h2) /\
    children_of h2 a = Ok (cs ++ [c]) /\
    children_of h2 b = Ok (cs ++ [c]).
Proof.
  intros Ha Hb Hne Hl.
  set (na' := Node (parent na) (content na) (children nb)).
  set (h1 := set_node h a na').
  assert (nodes h1 !! a = Some na') as Ha1 by by eapply set_node_lookup.
  assert (nodes h1 !! b = Some nb) as Hb1
    by (unfold h1; by rewrite set_node_lookup_ne).
  assert (lists h1 !! children na' = Some cs) as Hl1 by done.
  set (h2 := set_list h1 (children nb) (cs ++ [c])).
  assert (lists h2 !! children nb = Some (cs ++ [c])) as Hl2.
  { simpl. apply list_lookup_insert_eq. by eapply lookup_lt_Some. }
  exists (children nb), h1, h2.
  split; [unfold get_children, deref; by rewrite Hb|].
  split.
  { unfold set_children, mbind, prog_bind, ask, store_node, deref.
    by rewrite Ha. }
  split; [unfold get_children, deref; by rewrite Ha1|].
  split; [unfold get_children, deref; by rewrite Hb1|].
  split; [by apply (children_of_Ok h1 a na')|].
  split; [by apply (add_child_eq h1 a na' cs c)|].
  split; [by apply (children_of_Ok h2 a na')|].
  by apply (children_of_Ok h2 b nb).
Qed.

(** Giving [C] the list of children of [B] in [A(B(D, E), C)], then adding
    [A] to the children of [C]. *)
Lemma set_children_aliases_witness :
  nodes heap_ABDEC !! 2%nat
    = Some (Node (Some 0%nat) (Some "C"%string) 3%nat) /\
  nodes heap_ABDEC !! 1%nat
    = Some (Node (Some 0%nat) (Some "B"%string) 2%nat) /\
  2%nat ≠ 1%nat /\
  lists heap_ABDEC !! 2%nat = Some [3; 4]%nat /\
  exists (l : lref) (h1 h2 : heap string),
    get_children heap_ABDEC 1%nat = Ok l /\
    set_children 2%nat l heap_ABDEC = (Ok tt, h1) /\
    get_children h1 2%nat = Ok l /\
    get_children h1 1%nat = Ok l /\
    children_of h1 2%nat = Ok [3; 4]%nat /\
    add_child 2%nat 0%nat h1 = (Ok tt, h2) /\
    children_of h2 2%nat = Ok ([3; 4] ++ [0])%nat /\
    children_of h2 1%nat = Ok ([3; 4] ++ [0])%nat.
Proof.
  assert (2%nat ≠ 1%nat) as Hne by lia.
  split; [reflexivity|]. split; [reflexivity|]. split; [exact Hne|].
  split; [reflexivity|].
  exact (set_children_aliases heap_ABDEC 2%nat 1%nat 0%nat _ _ [3; 4]%nat
           eq_refl eq_refl Hne eq_refl).
Defined.

(** X9.  The constructor allocates a node object that no reference named
    before, with the parent, the content and the list object it is given
    (the default list object when [children] is left out).  It writes
    nothing else: the list objects and the node objects that exist stay,
    so the node given as parent does not get the new node as a child. *)
Theorem AbstractNode_init_fresh {T : Type} (h : heap T)
    (par : option nref) (cont : option T) (ch : option lref) :
  exists (a : nref) (h' : heap T),
    AbstractNode_init par cont ch h = (Ok a, h') /\
    nodes h !! a = None /\
    get_parent h' a = Ok par /\
    get_content h' a = Ok cont /\
    get_children h' a = Ok (default default_children ch) /\
    lists h' = lists h /\
    (forall m md, nodes h !! m = Some md -> nodes h' !! m = Some md) /\
    (forall m, is_Some (nodes h !! m) -> children_of h' m = children_of h m).
Proof.
  set (nd := Node par cont (default default_children ch)).
  exists (length (nodes h)), (Heap (nodes h ++ [nd]) (lists h)).
  assert (nodes (Heap (nodes h ++ [nd]) (lists h)) !! length (nodes h)
          = Some nd) as Hnew by by apply list_lookup_middle.
  split; [unfold AbstractNode_init; by destruct ch|].
  split; [by apply lookup_ge_None_2|].
  unfold get_parent, get_content, get_children, deref. rewrite Hnew.
  repeat (split; [done|]). split.
  - intros m md Hm. simpl. by apply lookup_app_l_Some.
  - intros m [md Hm]. unfold children_of, deref. simpl.
    by rewrite (lookup_app_l_Some _ _ _ _ Hm), Hm.
Qed.

(** ** Child cycles *)

Lemma comprehension_ok_or_overflow {A B : Type} (f : A -> result B) xs :
  Forall (fun x => ok_or_overflow (f x)) xs ->
  ok_or_overflow (comprehension f xs).
Proof.
  induction 1 as [|x xs Hx _ IH]; simpl; [left; eauto|].
  destruct Hx as [[y ->]| ->]; simpl; [|by right].
  destruct IH as [[ys ->]| ->]; simpl; [left; eauto|by right].
Qed.

Lemma comprehension_overflow {A B : Type} (f : A -> result B) xs x :
  x ∈ xs -> f x = Raise RecursionError ->
  Forall (fun x => ok_or_overflow (f x)) xs ->
  comprehension f xs = Raise RecursionError.
Proof.
  intros Hin Hx Hall. induction Hall as [|y ys Hy Hys IH].
  - by apply elem_of_nil in Hin.
  - simpl. apply elem_of_cons in Hin as [<-|Hin]; [by rewrite Hx|].
    destruct Hy as [[v ->]| ->]; simpl; [|done]. by rewrite IH.
Qed.

Lemma closed_children {T : Type} (h : heap T) n :
  closed h -> is_Some (nodes h !! n) ->
  exists nd cs, nodes h !! n = Some nd /\ lists h !! children nd = Some cs /\
                children_of h n = Ok cs /\
                Forall (fun c => is_Some (nodes h !! c)) cs.
Proof.
  intros [Hnodes Hlists] [nd Hn].
  destruct (Hnodes n nd Hn) as [[cs Hl] _]. exists nd, cs.
  split; [done|]. split; [done|]. split; [by eapply children_of_Ok|].
  apply Forall_forall. intros c Hc. by eapply Hlists.
Qed.

Lemma get_size_ok_or_overflow {T : Type} (h : heap T) fuel :
  closed h ->
  forall n, is_Some (nodes h !! n) -> ok_or_overflow (get_size fuel h n).
Proof.
  intros Hcl. induction fuel as [|fuel IH]; intros n Hn; [by right|].
  destruct (closed_children h n Hcl Hn) as (nd & cs & _ & _ & Hcs & Hall).
  simpl. rewrite Hcs. simpl.
  destruct (comprehension_ok_or_overflow (get_size fuel h) cs)
    as [[ss ->]| ->]; simpl; [|left; eauto|by right].
  eapply Forall_impl; [exact Hall|]. intros c Hc. by apply IH.
Qed.

Lemma get_height_ok_or_overflow {T : Type} (h : heap T) fuel :
  closed h ->
  forall n, is_Some (nodes h !! n) -> ok_or_overflow (get_height fuel h n).
Proof.
  intros Hcl. induction fuel as [|fuel IH]; intros n Hn; [by right|].
  destruct (closed_children h n Hcl Hn) as (nd & cs & Hnd & Hl & Hcs & Hall).
  simpl. rewrite (is_leaf_Ok h n nd cs Hnd Hl). simpl.
  destruct (Z.of_nat (length cs) =? 0) eqn:Hlen; [left; eauto|].
  rewrite Hcs. simpl.
  destruct (comprehension_ok_or_overflow (get_height fuel h) cs)
    as [[hs Hhs]| ->]; simpl; [| |by right].
  { eapply Forall_impl; [exact Hall|]. intros c Hc. by apply IH. }
  rewrite Hhs. simpl. apply comprehension_Forall2 in Hhs.
  destruct Hhs as [|c hc cs hs _ _]; [discriminate|]. simpl. left. eauto.
Qed.

Lemma get_leaves_ok_or_overflow {T : Type} (h : heap T) fuel :
  closed h ->
  forall n, is_Some (nodes h !! n) -> ok_or_overflow (get_leaves fuel h n).
Proof.
  intros Hcl. induction fuel as [|fuel IH]; intros n Hn; [by right|].
  destruct (closed_children h n Hcl Hn) as (nd & cs & Hnd & Hl & Hcs & Hall).
  simpl. rewrite (is_leaf_Ok h n nd cs Hnd Hl). simpl.
  destruct (Z.of_nat (length cs) =? 0) eqn:Hlen; [left; eauto|].
  rewrite Hcs. simpl.
  destruct (comprehension_ok_or_overflow (get_leaves fuel h) cs)
    as [[ls ->]| ->]; simpl; [|left; eauto|by right].
  eapply Forall_impl; [exact Hall|]. intros c Hc. by apply IH.
Qed.

Lemma child_cycle_step {T : Type} (h : heap T) n :
  reaches_child_cycle h n ->
  exists c, child_of h n c /\ reaches_child_cycle h c.
Proof.
  intros (m & Hreach & Hcyc). destruct Hreach as [x|x y z Hstep Hrest].
  - inversion Hcyc as [? ? Hstep|? y ? Hstep Hrest]; subst.
    + exists x. split; [done|]. by exists x.
    + exists y. split; [done|]. exists x. split; [by apply tc_rtc|done].
  - exists y. split; [done|]. by exists z.
Qed.

(** X10.  In a closed store, from a node whose children lead to a node that
    is its own descendant, [get_size], [get_height] and [get_leaves]
    recurse without end: whatever the stack, each fails for lack of
    stack.  Two nodes made without a [children] argument are such a case
    as soon as one is added to the children of the other. *)
Theorem child_cycle_overflows {T : Type} (h : heap T) (n : nref) :
  closed h -> reaches_child_cycle h n ->
  overflows (fun fuel => get_size fuel h n) /\
  overflows (fun fuel => get_height fuel h n) /\
  overflows (fun fuel => get_leaves fuel h n).
Proof.
  intros Hcl Hcyc.
  assert (forall m, reaches_child_cycle h m ->
            exists c nd cs, reaches_child_cycle h c /\ c ∈ cs /\
              nodes h !! m = Some nd /\ lists h !! children nd = Some cs /\
              children_of h m = Ok cs /\
              is_leaf h m = Ok false /\
              Forall (fun c => is_Some (nodes h !! c)) cs) as Hstep.
  { intros m Hm.
    destruct (child_cycle_step h m Hm) as (c & (nd & cs & Hn & Hl & Hc) & Hc').
    exists c, nd, cs. split; [done|]. split; [done|].
    split; [done|]. split; [done|].
    split; [by eapply children_of_Ok|]. split.
    - rewrite (is_leaf_Ok h m nd cs Hn Hl). f_equal. apply Z.eqb_neq.
      destruct cs; [by apply elem_of_nil in Hc|simpl; lia].
    - destruct (closed_children h m Hcl (mk_is_Some _ _ Hn))
        as (nd' & cs' & Hn' & Hl' & _ & Hall).
      rewrite Hn in Hn'. injection Hn' as <-.
      rewrite Hl in Hl'. by injection Hl' as <-. }
  split; [|split]; intros fuel; revert n Hcyc;
    (induction fuel as [|fuel IH]; intros n Hcyc; [done|]);
    destruct (Hstep n Hcyc)
      as (c & nd & cs & Hc' & Hc & Hn & Hl & Hcs & Hleaf & Hall);
    simpl; rewrite ?Hleaf; simpl; rewrite Hcs; simpl.
  - rewrite (comprehension_overflow (get_size fuel h) cs c Hc (IH c Hc'));
      [done|].
    eapply Forall_impl; [exact Hall|]. intros x Hx.
    by apply get_size_ok_or_overflow.
  - rewrite (comprehension_overflow (get_height fuel h) cs c Hc (IH c Hc'));
      [done|].
    eapply Forall_impl; [exact Hall|]. intros x Hx.
    by apply get_height_ok_or_overflow.
  - rewrite (comprehension_overflow (get_leaves fuel h) cs c Hc (IH c Hc'));
      [done|].
    eapply Forall_impl; [exact Hall|]. intros x Hx.
    by apply get_leaves_ok_or_overflow.
Qed.

(** The theorem on two nodes made without [children], the second added to
    the first: both hold the list [[B]], so [B] is its own child. *)
Lemma child_cycle_overflows_witness :
  closed heap_default_pair /\
  reaches_child_cycle heap_default_pair 0%nat /\
  overflows (fun fuel => get_size fuel heap_default_pair 0%nat) /\
  overflows (fun fuel => get_height fuel heap_default_pair 0%nat) /\
  overflows (fun fuel => get_leaves fuel heap_default_pair 0%nat).
Proof.
  assert (closed heap_default_pair) as Hcl.
  { split.
    - intros [|[|n]] nd Hn; [| |discriminate]; injection Hn as <-;
        (split; [by eexists|]); intros p Hp; [discriminate|].
      injection Hp as <-. by eexists.
    - intros [|l] cs c Hl Hc; [|discriminate]. injection Hl as <-.
      apply elem_of_cons in Hc as [->|Hc]; [by eexists|].
      by apply elem_of_nil in Hc. }
  assert (child_of heap_default_pair 0%nat 1%nat) as H01.
  { eexists _, [1%nat]. split; [reflexivity|]. split; [reflexivity|]. left. }
  assert (child_of heap_default_pair 1%nat 1%nat) as H11.
  { eexists _, [1%nat]. split; [reflexivity|]. split; [reflexivity|]. left. }
  assert (reaches_child_cycle heap_default_pair 0%nat) as Hcyc.
  { exists 1%nat. split; [by apply rtc_once|by apply tc_once]. }
  split; [exact Hcl|]. split; [exact Hcyc|].
  exact (child_cycle_overflows heap_default_pair 0%nat Hcl Hcyc).
Defined.

(** ** The yes/no queries *)

(** X11.  On every node, error cases included, [is_leaf] answers the
    opposite of [has_children] and [is_root] the opposite of
    [has_parent]. *)
Theorem is_leaf_is_root_opposites {T : Type} (h : heap T) (n : nref) :
  is_leaf h n = (b ← has_children h n; Ok (negb b)) /\
  is_root h n = (b ← has_parent h n; Ok (negb b)).
Proof.
  split.
  - unfold is_leaf, has_children.
    destruct (children_of h n) as [cs| |]; simpl; [|done|done].
    by destruct cs.
  - unfold is_root, has_parent.
    destruct (deref h n) as [nd| |]; simpl; [|done|done].
    by destruct (parent nd).
Qed.

(** ** What the nested result of [get_descendants] holds *)

Lemma get_descendants_compose {T : Type} (h : heap T) n cs dss :
  children_of h n = Ok cs ->
  Forall2 (fun c d => returns (fun fuel => get_descendants fuel h c) d)
          cs dss ->
  returns (fun fuel => get_descendants fuel h n)
          (match cs with
           | [] => []
           | _ :: _ => List.map VNode cs ++ List.map VList dss
           end).
Proof.
  intros Hcs Hall.
  apply (comprehension_returns_all (fun fuel => get_descendants fuel h))
    in Hall.
  destruct Hall as [k Hk]. exists (S k). intros [|fuel] Hfuel; [lia|].
  specialize (Hk fuel ltac:(lia)).
  simpl. unfold is_leaf. rewrite Hcs. destruct cs as [|c cs]; [done|].
  simpl in Hk |- *. by rewrite Hk.
Qed.

Lemma get_descendants_returns {T : Type} (h : heap T) n :
  tree_below h n ->
  exists vs, returns (fun fuel => get_descendants fuel h n) vs.
Proof.
  revert n. apply tree_below_ind'. intros n nd cs Hn Hl _ IH.
  apply (comprehension_returns (fun fuel => get_descendants fuel h)) in IH.
  destruct IH as (dss & Hall & _). eexists.
  apply (get_descendants_compose h n cs dss); [|done].
  by eapply children_of_Ok.
Qed.

Lemma flatten_nodes (cs : list nref) :
  concat (List.map flatten (List.map VNode cs)) = cs.
Proof. induction cs as [|c cs IH]; simpl; [done|]. by rewrite IH. Qed.

Lemma get_descendants_fuel_flatten {T : Type} (h : heap T) fuel n vs ds :
  get_descendants fuel h n = Ok vs ->
  descendants_preorder fuel h n = Ok ds ->
  flatten (VList vs) ≡ₚ ds.
Proof.
  revert n vs ds. induction fuel as [|fuel IH]; intros n vs ds Hvs Hds.
  - discriminate.
  - simpl in Hvs, Hds. inv_bind Hds as cs Hcs. inv_bind Hds as dsp Hdsp.
    injection Hds as <-. inv_bind Hvs as leaf Hleaf.
    apply is_leaf_inv in Hleaf as (cs' & Hcs' & ->).
    rewrite Hcs in Hcs'. injection Hcs' as <-.
    apply comprehension_Forall2 in Hdsp.
    destruct cs as [|c cs].
    + simpl in Hvs. injection Hvs as <-.
      by apply Forall2_nil_inv_l in Hdsp as ->.
    + replace (Z.of_nat (length (c :: cs)) =? 0) with false in Hvs
        by (symmetry; apply Z.eqb_neq; simpl; lia).
      rewrite Hcs in Hvs. simpl in Hvs. inv_bind Hvs as dsc Hdsc.
      injection Hvs as <-.
      change (y ← get_descendants fuel h c;
              ys ← comprehension (get_descendants fuel h) cs; Ok (y :: ys))
        with (comprehension (get_descendants fuel h) (c :: cs)) in Hdsc.
      apply comprehension_Forall2 in Hdsc.
      change (flatten (VList (VNode c :: List.map VNode cs
                                ++ List.map VList dsc)))
        with (concat (List.map flatten
                (List.map VNode (c :: cs) ++ List.map VList dsc))).
      rewrite List.map_app, concat_app, flatten_nodes. clear Hcs.
      revert dsp Hdsp.
      induction Hdsc as [|c' d' cs' dsc' Hc' _ IHr]; intros dsp Hdsp.
      * by apply Forall2_nil_inv_l in Hdsp as ->.
      * apply Forall2_cons_inv_l in Hdsp as (y & dsp' & Hy & Hdsp' & ->).
        inv_bind Hy as p Hp. injection Hy as <-.
        specialize (IHr _ Hdsp'). pose proof (IH _ _ _ Hc' Hp) as Hd.
        change (concat (List.map flatten (List.map VList (d' :: dsc'))))
          with (flatten (VList d')
                  ++ concat (List.map flatten (List.map VList dsc'))).
        simpl. constructor. rewrite <- IHr, <- Hd.
        apply Permutation_app_swap_app.
Qed.

(** X12.  On a finite acyclic structure [get_descendants] returns: the
    empty list on a leaf, and otherwise the children followed by one
    nested list per child, the result of the call on that child.  Read
    through all its levels, the result holds the nodes of the pre-order
    walk of the descendants, each as often as the walk does, in another
    order. *)
Theorem get_descendants_holds_preorder {T : Type} (h : heap T) (n : nref) :
  tree_below h n ->
  exists (cs : list nref) (dss : list (list pyval)) (vs : list pyval)
         (ds : list nref),
    children_of h n = Ok cs /\
    Forall2 (fun c d => returns (fun fuel => get_descendants fuel h c) d)
            cs dss /\
    returns (fun fuel => get_descendants fuel h n) vs /\
    vs = match cs with
         | [] => []
         | _ :: _ => List.map VNode cs ++ List.map VList dss
         end /\
    returns (fun fuel => descendants_preorder fuel h n) ds /\
    flatten (VList vs) ≡ₚ ds.
Proof.
  intros Ht.
  destruct (descendants_preorder_returns h n Ht) as (ds & k2 & Hk2).
  destruct Ht as [n nd cs Hn Hl Hall].
  pose proof (children_of_Ok h n nd cs Hn Hl) as Hcs.
  assert (Forall (fun c => exists d,
            returns (fun fuel => get_descendants fuel h c) d) cs) as Hret.
  { eapply Forall_impl; [exact Hall|]. intros c Hc.
    by apply get_descendants_returns. }
  apply (comprehension_returns (fun fuel => get_descendants fuel h)) in Hret.
  destruct Hret as (dss & Hdss & _).
  pose proof (get_descendants_compose h n cs dss Hcs Hdss) as [k1 Hk1].
  exists cs, dss. eexists. exists ds.
  split; [exact Hcs|]. split; [exact Hdss|]. split; [by exists k1|].
  split; [done|]. split; [by exists k2|].
  apply (get_descendants_fuel_flatten h (k1 `max` k2)%nat n);
    [apply Hk1|apply Hk2]; lia.
Qed.

(** The theorem at the root of [A(B(D), C)]. *)
Lemma get_descendants_holds_preorder_witness :
  tree_below heap_ABDC 0%nat /\
  exists (cs : list nref) (dss : list (list pyval)) (vs : list pyval)
         (ds : list nref),
    children_of heap_ABDC 0%nat = Ok cs /\
    Forall2 (fun c d =>
               returns (fun fuel => get_descendants fuel heap_ABDC c) d)
            cs dss /\
    returns (fun fuel => get_descendants fuel heap_ABDC 0%nat) vs /\
    vs = match cs with
         | [] => []
         | _ :: _ => List.map VNode cs ++ List.map VList dss
         end /\
    returns (fun fuel => descendants_preorder fuel heap_ABDC 0%nat) ds /\
    flatten (VList vs) ≡ₚ ds.
Proof.
  assert (tree_below heap_ABDC 0%nat) as Ht by tree_below_tac.
  split; [exact Ht|].
  exact (get_descendants_holds_preorder heap_ABDC 0%nat Ht).
Defined.

(** ** The facade on a tree with a root *)

Lemma get_depth_fuel_zero {T : Type} (h : heap T) fuel n d :
  get_depth fuel h n = Ok d ->
  0 <= d /\ (d = 0 <-> is_root h n = Ok true).
Proof.
  revert n d. induction fuel as [|fuel IH]; intros n d H; [discriminate|].
  simpl in H. inv_bind H as root Hroot. destruct root.
  - injection H as <-. split; [lia|]. done.
  - inv_bind H as nd Hnd. inv_bind H as dp Hdp. injection H as <-.
    destruct (parent nd) as [p|]; [|discriminate]. simpl in Hdp.
    destruct (IH _ _ Hdp) as [Hnonneg _]. split; [lia|].
    rewrite Hroot. split; [lia|discriminate].
Qed.

Lemma get_depth_returns {T : Type} (h : heap T) n :
  chain_ends h n -> exists d, returns (fun fuel => get_depth fuel h n) d.
Proof.
  induction 1 as [n nd Hn Hp|n nd p Hn Hp _ (d & Hd)].
  - exists 0. apply get_depth_compose_root.
    unfold get_parent, deref. rewrite Hn. simpl. by rewrite Hp.
  - exists (d + 1). apply (get_depth_compose h n p d); [|done].
    unfold get_parent, deref. rewrite Hn. simpl. by rewrite Hp.
Qed.

(** X13.  A tree whose root is set to a node is not empty and hands the
    node back; over a finite acyclic structure with a finite parent chain
    its four queries return what the queries of the root node return: a
    positive size, a height that is not negative, at least one leaf, and
    the depth of the node, which is 0 only when the node has no parent
    ([set_root] does not ask for that). *)
Theorem tree_queries_on_root {T : Type} (h : heap T) (r : nref) :
  tree_below h r -> chain_ends h r ->
  AbstractTree.get_root (AbstractTree.set_root (AbstractTree.init None)
                                               (Some r)) = Some r /\
  AbstractTree.is_empty (AbstractTree.set_root (AbstractTree.init None)
                                               (Some r)) = false /\
  exists (s ht d : Z) (ls : list nref),
    returns (fun fuel => AbstractTree.get_size fuel h (Tree (Some r))) s /\
    returns (fun fuel => get_size fuel h r) s /\ 0 < s /\
    returns (fun fuel => AbstractTree.get_height fuel h (Tree (Some r))) ht /\
    returns (fun fuel => get_height fuel h r) ht /\ 0 <= ht /\
    returns (fun fuel => AbstractTree.get_leaves fuel h (Tree (Some r))) ls /\
    returns (fun fuel => get_leaves fuel h r) ls /\ ls ≠ [] /\
    returns (fun fuel => AbstractTree.get_depth fuel h (Tree (Some r))) d /\
    returns (fun fuel => get_depth fuel h r) d /\
    (d = 0 <-> is_root h r = Ok true).
Proof.
  intros Ht Hends. split; [done|]. split; [done|].
  destruct (get_size_returns h r Ht) as (s & k1 & Hk1).
  destruct (get_height_returns h r Ht) as (ht & k2 & Hk2).
  destruct (get_leaves_returns h r Ht) as (ls & k3 & Hk3).
  destruct (get_depth_returns h r Hends) as (d & k4 & Hk4).
  exists s, ht, d, ls.
  split; [by exists k1|]. split; [by exists k1|].
  split; [by eapply get_size_pos, (Hk1 k1 (le_n _))|].
  split; [by exists k2|]. split; [by exists k2|].
  split; [by eapply get_height_nonneg, (Hk2 k2 (le_n _))|].
  split; [by exists k3|]. split; [by exists k3|].
  split; [by eapply get_leaves_fuel_leaves, (Hk3 k3 (le_n _))|].
  split; [by exists k4|]. split; [by exists k4|].
  by eapply get_depth_fuel_zero, (Hk4 k4 (le_n _)).
Qed.

(** The theorem with the node [B] of [A(B(D, E), C)] as root of a tree. *)
Lemma tree_queries_on_root_witness :
  tree_below heap_ABDEC 1%nat /\ chain_ends heap_ABDEC 1%nat /\
  exists (s ht d : Z) (ls : list nref),
    returns (fun fuel =>
               AbstractTree.get_size fuel heap_ABDEC (Tree (Some 1%nat))) s /\
    0 < s /\
    returns (fun fuel =>
               AbstractTree.get_depth fuel heap_ABDEC (Tree (Some 1%nat))) d /\
    (d = 0 <-> is_root heap_ABDEC 1%nat = Ok true) /\
    returns (fun fuel =>
               AbstractTree.get_height fuel heap_ABDEC (Tree (Some 1%nat)))
            ht /\
    returns (fun fuel =>
               AbstractTree.get_leaves fuel heap_ABDEC (Tree (Some 1%nat)))
            ls.
Proof.
  assert (tree_below heap_ABDEC 1%nat) as Ht by tree_below_tac.
  assert (chain_ends heap_ABDEC 1%nat) as Hends.
  { eapply chain_ends_step; [reflexivity|reflexivity|].
    eapply chain_ends_root; reflexivity. }
  split; [exact Ht|]. split; [exact Hends|].
  destruct (tree_queries_on_root heap_ABDEC 1%nat Ht Hends)
    as (_ & _ & s & ht & d & ls & H1 & _ & H2 & H3 & _ & _ & H4 & _ & _ &
        H5 & _ & H6).
  exists s, ht, d, ls. repeat split; try assumption; apply H6.
Defined.

(** ** Removing a child leaves its parent link *)

Lemma py_remove_once (x : nref) (xs : list nref) :
  occurrences x xs = 1%nat ->
  py_remove x xs = Some (filter (fun y => y ≠ x) xs).
Proof.
  unfold occurrences. induction xs as [|y ys IH]; [discriminate|].
  simpl. destruct (Nat.eqb_spec y x) as [->|Hne].
  - rewrite (filter_cons_True (fun y => y = x)) by done.
    rewrite (filter_cons_False (fun y => y ≠ x)) by (intros Hn; by apply Hn).
    simpl. intros [= Hnone]. f_equal. symmetry.
    apply length_zero_iff_nil in Hnone. clear IH.
    induction ys as [|z zs IHz]; [done|].
    destruct (decide (z = x)) as [->|Hzx].
    + rewrite (filter_cons_True (fun y => y = x)) in Hnone by done.
      discriminate.
    + rewrite (filter_cons_False (fun y => y = x)) in Hnone by done.
      rewrite (filter_cons_True (fun y => y ≠ x)) by done.
      f_equal. by apply IHz.
  - rewrite (filter_cons_False (fun y => y = x)) by done.
    rewrite (filter_cons_True (fun y => y ≠ x)) by done.
    intros Hone. by rewrite (IH Hone).
Qed.

(** X14.  [remove_child] writes the list object only.  When a node [c]
    whose parent is [p] occurs once among the children of [p], then after
    [p.remove_child(c)] the children of [p] are the others in their order,
    one fewer, but [c] still has [p] as parent: [c] is no root, and
    [c.get_siblings()] is the whole list of children of [p]. *)
Theorem remove_child_keeps_parent {T : Type} (h : heap T) (p c : nref)
    (pd cd : node T) (cs : list nref) :
  nodes h !! p = Some pd -> lists h !! children pd = Some cs ->
  nodes h !! c = Some cd -> parent cd = Some p ->
  occurrences c cs = 1%nat ->
  exists (h' : heap T) (cs' : list nref),
    remove_child p c h = (Ok tt, h') /\
    nodes h' = nodes h /\
    children_of h' p = Ok cs' /\
    cs' = filter (fun y => y ≠ c) cs /\
    length cs = S (length cs') /\
    get_parent h' c = Ok (Some p) /\
    is_root h' c = Ok false /\
    get_siblings h' c = Ok cs'.
Proof.
  intros Hp Hl Hc Hpar Honce.
  set (cs' := filter (fun y => y ≠ c) cs).
  set (h' := set_list h (children pd) cs').
  assert (lists h' !! children pd = Some cs') as Hl'.
  { simpl. apply list_lookup_insert_eq. by eapply lookup_lt_Some. }
  exists h', cs'.
  split. { by rewrite (remove_child_eq h p pd cs c Hp Hl), py_remove_once. }
  split; [done|]. split; [by apply (children_of_Ok h' p pd)|].
  split; [done|]. split.
  { pose proof (length_filter_ne_eq c cs) as Hlen. fold cs' in Hlen. lia. }
  unfold get_parent, is_root, get_siblings, is_root, get_children, deref,
    deref_list.
  change (nodes h') with (nodes h). rewrite Hc. simpl. rewrite Hpar. simpl.
  rewrite Hp. simpl. simpl in Hl'. rewrite Hl'. simpl.
  split; [done|]. split; [done|]. f_equal.
  unfold cs'. clear. induction cs as [|y ys IH]; [done|].
  destruct (decide (y = c)) as [->|Hne].
  - by rewrite (filter_cons_False (fun y => y ≠ c))
      by (intros Hn; by apply Hn).
  - rewrite (filter_cons_True (fun y => y ≠ c)) by done.
    rewrite (filter_cons_True (fun y => y ≠ c)) by done. by rewrite IH.
Qed.

(** Removing [D] from the children of [B] in [A(B(D, E), C)]. *)
Lemma remove_child_keeps_parent_witness :
  nodes heap_ABDEC !! 1%nat
    = Some (Node (Some 0%nat) (Some "B"%string) 2%nat) /\
  lists heap_ABDEC !! 2%nat = Some [3; 4]%nat /\
  nodes heap_ABDEC !! 3%nat
    = Some (Node (Some 1%nat) (Some "D"%string) 4%nat) /\
  occurrences 3%nat [3; 4]%nat = 1%nat /\
  exists (h' : heap string) (cs' : list nref),
    remove_child 1%nat 3%nat heap_ABDEC = (Ok tt, h') /\
    nodes h' = nodes heap_ABDEC /\
    children_of h' 1%nat = Ok cs' /\
    cs' = filter (fun y => y ≠ 3%nat) [3; 4]%nat /\
    length [3; 4]%nat = S (length cs') /\
    get_parent h' 3%nat = Ok (Some 1%nat) /\
    is_root h' 3%nat = Ok false /\
    get_siblings h' 3%nat = Ok cs'.
Proof.
  split; [reflexivity|]. split; [reflexivity|]. split; [reflexivity|].
  split; [reflexivity|].
  exact (remove_child_keeps_parent heap_ABDEC 1%nat 3%nat _ _ [3; 4]%nat
           eq_refl eq_refl eq_refl eq_refl eq_refl).
Defined.
